(** * ui.js: custom elements behind a class-free interface

    A shallow embedding of [ui.js] (James Diacono) and of the part of the
    host platform the module talks to: the custom element registry,
    [document.createElement], the module's [WeakMap], function objects and
    [Object.freeze].  The repository holds two copies of the module, dated
    2024-02-16 and 2024-02-26; they differ in their comments only.

    The development has two layers.
    - [Section Library] holds the module's own code ([ui], [make_element],
      the two lifecycle callbacks of its class, the evaluation of the
      module), written against an arbitrary way [call] of running a function
      value.  Nothing is assumed of what the functions it calls do.
    - [Section Application] closes the loop: code outside the module is a
      tree of platform operations, function values are run with fuel, and
      the facts that rest on [instances] being private to the module are
      proved for every application program.

    What the model leaves out: objects are records of own data properties
    (no getters, proxies or prototype chains), the built-ins the module
    calls are the platform's own, an element created before its tag is
    defined is never upgraded, a foreign class has the default constructor,
    and there is no garbage collection: an object once allocated stays. *)

From Stdlib Require Import Ascii String.
From stdpp Require Import base gmap strings list fin_maps.

Open Scope string_scope.

(** ** Values, objects and the world *)

(** Heap addresses.  Every JavaScript object (plain object, function, DOM
    element) lives at one address; its identity is the address. *)
Abbreviation loc := positive.

Inductive value : Type :=
| VUndefined
| VNull
| VBool (b : bool)
| VNum (n : Z)
| VStr (s : string)
| VError (name : string)      (* an exception object raised by the platform *)
| VRef (l : loc).             (* reference to a heap object *)

#[global] Instance value_eq_dec : EqDecision value.
Proof. solve_decision. Defined.

(** What a function object runs when it is called. *)
Inductive code : Type :=
| CUi                                            (* function ui(tag, create) *)
| CMakeElement (tag : string) (create : value)   (* a make_element closure *)
| CUser (id : nat) (env : list value).           (* a function of the application *)

(** A custom element definition, as the registry keeps it.  [UiClass] is the
    anonymous class in the body of [ui]: it closes over nothing but the
    module-level [instances], so all its occurrences behave alike.  A foreign
    class is one registered by other code; the platform reads its two
    lifecycle callbacks when it is defined ([VUndefined] when it has none)
    and later calls them with the element, their [this], as argument. *)
Inductive cls : Type :=
| UiClass
| ForeignClass (connected disconnected : value).

Inductive kind : Type :=
| KObject
| KFunction (c : code)
| KElement (tag : string) (definition : option cls).

Record obj : Type := Obj {
  props : gmap string value;   (* own data properties *)
  frozen : bool;               (* set by Object.freeze *)
  okind : kind
}.

Record World : Type := MkWorld {
  heap : gmap loc obj;
  registry : gmap string cls;    (* window.customElements *)
  document : gset loc;           (* the elements attached to the document *)
  instances : gmap loc value;    (* let instances = new WeakMap(); *)
  reported : list value          (* exceptions the platform reported *)
}.

(** What a computation does that this development keeps track of: the
    registrations it asks for, the elements it creates, its writes to
    [instances] and its calls of function values.  A call records what the
    callee did in [inner], so that the top level of a trace lists exactly
    the actions of the code under study. *)
#[warnings="-register-all"]
Inductive event : Type :=
| EvDefine (tag : string) (c : cls)
| EvCreateElement (tag : string) (e : loc)
| EvSet (key : loc) (v : value)
| EvCall (f : value) (args : list value) (inner : list event).

(** ** The monad of JavaScript computations

    A computation takes a world and gives an outcome, the world it leaves
    and the trace of what it did.  It returns a value, throws, or (under
    [call_fuel] below) runs out of fuel. *)

Inductive outcome (A : Type) : Type :=
| Ok (a : A)
| Throw (err : value)
| Diverge.
Arguments Ok {A} a.
Arguments Throw {A} err.
Arguments Diverge {A}.

Record result (A : Type) : Type := Res {
  out : outcome A;
  post : World;
  trace : list event
}.
Arguments Res {A} out post trace.
Arguments out {A} r.
Arguments post {A} r.
Arguments trace {A} r.

Definition M (A : Type) : Type := World -> result A.

Definition ret {A} (a : A) : M A := fun w => Res (Ok a) w [].
Definition throw {A} (err : value) : M A := fun w => Res (Throw err) w [].

Definition bind {A B} (m : M A) (f : A -> M B) : M B := fun w =>
  let r := m w in
  match out r with
  | Ok a => let r' := f a (post r) in Res (out r') (post r') (trace r ++ trace r')
  | Throw err => Res (Throw err) (post r) (trace r)
  | Diverge => Res Diverge (post r) (trace r)
  end.

(** The outcome of a call whose value is dropped. *)
Definition void {A} (o : outcome A) : outcome unit :=
  match o with
  | Ok _ => Ok tt
  | Throw err => Throw err
  | Diverge => Diverge
  end.

#[global] Instance M_ret : MRet M := @ret.
#[global] Instance M_bind : MBind M := fun A B f m => bind m f.

Definition get_world : M World := fun w => Res (Ok w) w [].
Definition modify (f : World -> World) : M unit := fun w => Res (Ok tt) (f w) [].

Definition set_heap (h : gmap loc obj) (w : World) : World :=
  MkWorld h (registry w) (document w) (instances w) (reported w).
Definition set_registry (r : gmap string cls) (w : World) : World :=
  MkWorld (heap w) r (document w) (instances w) (reported w).
Definition set_document (d : gset loc) (w : World) : World :=
  MkWorld (heap w) (registry w) d (instances w) (reported w).
Definition set_instances (i : gmap loc value) (w : World) : World :=
  MkWorld (heap w) (registry w) (document w) i (reported w).
Definition set_reported (r : list value) (w : World) : World :=
  MkWorld (heap w) (registry w) (document w) (instances w) r.

(** ** Host platform primitives *)

Definition alloc (o : obj) : M loc := fun w =>
  let l := fresh (dom (heap w)) in
  Res (Ok l) (set_heap (<[l := o]> (heap w)) w) [].

(** A function expression or declaration: a new function object. *)
Definition new_function (c : code) : M value :=
  l ← alloc (Obj ∅ false (KFunction c)); mret (VRef l).

(** [typeof v] *)
Definition typeof (w : World) (v : value) : string :=
  match v with
  | VUndefined => "undefined"
  | VNull => "object"
  | VBool _ => "boolean"
  | VNum _ => "number"
  | VStr _ => "string"
  | VError _ => "object"
  | VRef l =>
      match okind <$> heap w !! l with
      | Some (KFunction _) => "function"
      | _ => "object"
      end
  end.

(** [v?.key]: [undefined] when [v] is [undefined] or [null], the property
    otherwise.  Objects are records of own data properties; a primitive has
    no property named [key]. *)
Definition optional_get (w : World) (v : value) (key : string) : value :=
  match v with
  | VRef l =>
      match heap w !! l with
      | Some o => default VUndefined (props o !! key)
      | None => VUndefined
      end
  | _ => VUndefined
  end.

(** [Object.freeze(v)]: freezes an object in place and returns it; a
    primitive is returned as it is. *)
Definition Object_freeze (v : value) : M value := fun w =>
  match v with
  | VRef l =>
      match heap w !! l with
      | Some o =>
          Res (Ok v) (set_heap (<[l := Obj (props o) true (okind o)]> (heap w)) w) []
      | None => Res (Ok v) w []
      end
  | _ => Res (Ok v) w []
  end.

(** [instances.get(key)] and [instances.set(key, v)] on the WeakMap. *)
Definition instances_get (key : loc) : M value := fun w =>
  Res (Ok (default VUndefined (instances w !! key))) w [].

Definition instances_set (key : loc) (v : value) : M unit := fun w =>
  Res (Ok tt) (set_instances (<[key := v]> (instances w)) w) [EvSet key v].

(** An exception raised inside a platform callback is reported by the
    platform and goes no further. *)
Definition report (m : M unit) : M unit := fun w =>
  let r := m w in
  match out r with
  | Throw err =>
      Res (Ok tt) (set_reported (reported (post r) ++ [err]) (post r)) (trace r)
  | _ => r
  end.

(** The definition an element was created with. *)
Definition definition_of (w : World) (e : loc) : option cls :=
  match okind <$> heap w !! e with
  | Some (KElement _ d) => d
  | _ => None
  end.

Definition tag_of (w : World) (e : loc) : option string :=
  match okind <$> heap w !! e with
  | Some (KElement t _) => Some t
  | _ => None
  end.

Section Library.

(** The platform's two naming rules: valid custom element names (for
    [customElements.define]) and valid element names (for
    [document.createElement]). *)
Variable valid_custom_name : string -> bool.
Variable valid_local_name : string -> bool.

(** Running a function value on arguments: whatever the callee does. *)
Variable call : value -> list value -> M value.

(** A call site [f(args)]. *)
Definition invoke (f : value) (args : list value) : M value := fun w =>
  let r := call f args w in
  Res (out r) (post r) [EvCall f args (trace r)].

(** [customElements.get(tag)]: the definition, [None] for [undefined]. *)
Definition customElements_get (tag : string) : M (option cls) := fun w =>
  Res (Ok (registry w !! tag)) w [].

(** [customElements.define(tag, c)]. *)
Definition customElements_define (tag : string) (c : cls) : M unit := fun w =>
  if negb (valid_custom_name tag) then
    Res (Throw (VError "SyntaxError")) w [EvDefine tag c]
  else if decide (is_Some (registry w !! tag)) then
    Res (Throw (VError "NotSupportedError")) w [EvDefine tag c]
  else
    Res (Ok tt) (set_registry (<[tag := c]> (registry w)) w) [EvDefine tag c].

(** [document.createElement(tag)]: a new element, in no document, bound to
    the definition the registry has for [tag] at this moment. *)
Definition document_createElement (tag : string) : M loc := fun w =>
  if negb (valid_local_name tag) then
    Res (Throw (VError "InvalidCharacterError")) w []
  else
    let e := fresh (dom (heap w)) in
    Res (Ok e)
        (set_heap (<[e := Obj ∅ false (KElement tag (registry w !! tag))]> (heap w)) w)
        [EvCreateElement tag e].

(** *** The module *)

(** The class given to [customElements.define] in [ui]. *)
Definition connectedCallback (this : loc) : M unit :=
  h ← instances_get this;
  w ← get_world;
  let connect := optional_get w h "connect" in
  if String.eqb (typeof w connect) "function" then
    _ ← invoke connect []; mret tt
  else mret tt.

Definition disconnectedCallback (this : loc) : M unit :=
  h ← instances_get this;
  w ← get_world;
  let disconnect := optional_get w h "disconnect" in
  if String.eqb (typeof w disconnect) "function" then
    _ ← invoke disconnect []; mret tt
  else mret tt.

(** The function [ui] returns. *)
Definition make_element (tag : string) (create : value) (params : value) : M value :=
  element ← document_createElement tag;
  handle ← invoke create [VRef element; params];
  _ ← instances_set element handle;
  mret (VRef element).

Definition ui (tag : string) (create : value) : M value :=
  c ← customElements_get tag;
  _ ← (if c is None then customElements_define tag UiClass else mret tt);
  f ← new_function (CMakeElement tag create);
  Object_freeze f.

(** Evaluation of the module: [let instances = new WeakMap();] and
    [export default Object.freeze(ui);].  The result is the export. *)
Definition module_init : M value :=
  _ ← modify (set_instances ∅);
  f ← new_function CUi;
  Object_freeze f.

(** *** What the platform does with a definition *)

(** The reaction to an element entering a document: the
    [connectedCallback] of the element's definition, with the element as
    [this]. *)
Definition connected_reaction (e : loc) : M unit := fun w =>
  match definition_of w e with
  | Some UiClass => connectedCallback e w
  | Some (ForeignClass c _) =>
      if decide (c = VUndefined) then ret tt w
      else (_ ← invoke c [VRef e]; mret tt) w
  | None => ret tt w
  end.

Definition disconnected_reaction (e : loc) : M unit := fun w =>
  match definition_of w e with
  | Some UiClass => disconnectedCallback e w
  | Some (ForeignClass _ d) =>
      if decide (d = VUndefined) then ret tt w
      else (_ ← invoke d [VRef e]; mret tt) w
  | None => ret tt w
  end.

(** The two transitions of an element: into the document and out of it.
    Attaching an attached element, or detaching a detached one, does
    nothing. *)
Definition attach (e : loc) : M unit := fun w =>
  if decide (e ∈ document w) then ret tt w
  else (_ ← modify (fun w => set_document ({[e]} ∪ document w) w);
        report (connected_reaction e)) w.

Definition detach (e : loc) : M unit := fun w =>
  if decide (e ∈ document w) then
    (_ ← modify (fun w => set_document (document w ∖ {[e]}) w);
     report (disconnected_reaction e)) w
  else ret tt w.

End Library.

(** ** Application code

    Code outside the module is a tree of operations on the platform.  It
    reaches the module through function values only: the export [ui] and the
    [make_element] functions [ui] returns.  The variable [instances] is not
    in its scope, so no operation names it. *)

Inductive op : Type :=
| OCall (f : value) (args : list value)          (* f(...args) *)
| ONewObject (fields : list (string * value))    (* {k: v, ...} *)
| ONewFunction (id : nat) (env : list value)     (* a function expression *)
| OGet (o : value) (key : string)                (* o.key *)
| OSet (o : value) (key : string) (v : value)    (* o.key = v *)
| ODelete (o : value) (key : string)             (* delete o.key *)
| OFreeze (o : value)                            (* Object.freeze(o) *)
| OTypeof (v : value)                            (* typeof v *)
| OCreateElement (tag : string)                  (* document.createElement(tag) *)
| ODefine (tag : string) (connected disconnected : value)
                                            (* customElements.define(tag, class) *)
| OAttach (e : value)                            (* document.body.append(e) *)
| ODetach (e : value)                            (* e.remove() *)
| OIsConnected (e : value)                       (* e.isConnected *)
| OConnectedCallback (this : value)              (* this.connectedCallback() *)
| ODisconnectedCallback (this : value).          (* this.disconnectedCallback() *)

Inductive prog : Type :=
| PRet (v : value)
| PThrow (err : value)
| PDo (o : op) (k : value -> prog)
| PTry (body : prog) (handler : value -> prog) (k : value -> prog).

(** [try m catch (err) handler]. *)
Definition catch {A} (m : M A) (handler : value -> M A) : M A := fun w =>
  let r := m w in
  match out r with
  | Throw err =>
      let r' := handler err (post r) in
      Res (out r') (post r') (trace r ++ trace r')
  | _ => r
  end.

(** Property access on an object of the heap, in strict mode. *)
Definition get_prop (o : value) (key : string) : M value := fun w =>
  match o with
  | VUndefined | VNull => throw (VError "TypeError") w
  | _ => ret (optional_get w o key) w
  end.

Definition set_prop (o : value) (key : string) (v : value) : M value := fun w =>
  match o with
  | VRef l =>
      match heap w !! l with
      | Some ob =>
          if frozen ob then throw (VError "TypeError") w
          else Res (Ok v)
                 (set_heap (<[l := Obj (<[key := v]> (props ob)) (frozen ob) (okind ob)]>
                              (heap w)) w) []
      | None => throw (VError "TypeError") w
      end
  | _ => throw (VError "TypeError") w
  end.

Definition delete_prop (o : value) (key : string) : M value := fun w =>
  match o with
  | VRef l =>
      match heap w !! l with
      | Some ob =>
          if decide (is_Some (props ob !! key)) then
            if frozen ob then throw (VError "TypeError") w
            else Res (Ok (VBool true))
                   (set_heap (<[l := Obj (delete key (props ob)) (frozen ob) (okind ob)]>
                                (heap w)) w) []
          else ret (VBool true) w
      | None => ret (VBool true) w
      end
  | VUndefined | VNull => throw (VError "TypeError") w
  | _ => ret (VBool true) w
  end.

Definition is_element (w : World) (v : value) : option loc :=
  match v with
  | VRef l => if tag_of w l is Some _ then Some l else None
  | _ => None
  end.

Section Application.

Variable valid_custom_name : string -> bool.
Variable valid_local_name : string -> bool.

(** The functions of the application: the body of function [id], closed
    over [env], applied to [args]. *)
Variable fns : nat -> list value -> list value -> prog.

Section Run.

Variable call : value -> list value -> M value.

Definition do_op (o : op) : M value :=
  match o with
  | OCall f args => invoke call f args
  | ONewObject fields =>
      l ← alloc (Obj (list_to_map fields) false KObject); mret (VRef l)
  | ONewFunction id env => new_function (CUser id env)
  | OGet o key => get_prop o key
  | OSet o key v => set_prop o key v
  | ODelete o key => delete_prop o key
  | OFreeze o => Object_freeze o
  | OTypeof v => w ← get_world; mret (VStr (typeof w v))
  | OCreateElement tag => e ← document_createElement valid_local_name tag; mret (VRef e)
  | ODefine tag c d =>
      _ ← customElements_define valid_custom_name tag (ForeignClass c d);
      mret VUndefined
  | OAttach v =>
      w ← get_world;
      if is_element w v is Some e then _ ← attach call e; mret VUndefined
      else mret VUndefined
  | ODetach v =>
      w ← get_world;
      if is_element w v is Some e then _ ← detach call e; mret VUndefined
      else mret VUndefined
  | OIsConnected v =>
      w ← get_world;
      if is_element w v is Some e then mret (VBool (bool_decide (e ∈ document w)))
      else mret VUndefined
  | OConnectedCallback this =>
      if this is VRef l then _ ← connectedCallback call l; mret VUndefined
      else mret VUndefined
  | ODisconnectedCallback this =>
      if this is VRef l then _ ← disconnectedCallback call l; mret VUndefined
      else mret VUndefined
  end.

Fixpoint run (p : prog) : M value :=
  match p with
  | PRet v => ret v
  | PThrow err => throw err
  | PDo o k => bind (do_op o) (fun v => run (k v))
  | PTry body handler k =>
      bind (catch (run body) (fun err => run (handler err))) (fun v => run (k v))
  end.

End Run.

(** Calling a function value, with [n] levels of nested calls allowed.
    [ui] is given a string as its tag; any other first argument is given
    the failure the platform has for a name that is no custom element
    name. *)
Fixpoint call_fuel (n : nat) (f : value) (args : list value) : M value :=
  match n with
  | O => fun w => Res Diverge w []
  | S n => fun w =>
      match f with
      | VRef l =>
          match okind <$> heap w !! l with
          | Some (KFunction CUi) =>
              match args with
              | VStr tag :: rest =>
                  ui valid_custom_name tag (hd VUndefined rest) w
              | _ => throw (VError "SyntaxError") w
              end
          | Some (KFunction (CMakeElement tag create)) =>
              make_element valid_local_name (call_fuel n) tag create
                (hd VUndefined args) w
          | Some (KFunction (CUser id env)) =>
              run (call_fuel n) (fns id env args) w
          | _ => throw (VError "TypeError") w
          end
      | _ => throw (VError "TypeError") w
      end
  end.

End Application.

(** ** Well-formed worlds and how a world may grow *)

(** What holds of every world the platform and the module can produce. *)
Record world_ok (valid_custom_name : string -> bool) (w : World) : Prop := WorldOk {
  ok_registry : forall t c, registry w !! t = Some c -> valid_custom_name t = true;
  ok_instances : forall l, is_Some (instances w !! l) -> is_Some (heap w !! l);
  ok_document : forall l, l ∈ document w -> is_Some (heap w !! l);
  ok_makers : forall l o t c,
    heap w !! l = Some o -> okind o = KFunction (CMakeElement t c) ->
    is_Some (registry w !! t)
}.

(** [extends w w']: [w'] is a later world than [w].  Objects keep their
    address and kind, a frozen object does not change at all, a registered
    tag keeps its definition, and the entry [instances] has for an object
    that existed in [w], or its absence, is the same in [w']. *)
Record extends (w w' : World) : Prop := Extends {
  ext_heap : forall l o, heap w !! l = Some o ->
    exists o', heap w' !! l = Some o' /\ okind o' = okind o /\
               (frozen o = true -> o' = o);
  ext_registry : forall t c, registry w !! t = Some c -> registry w' !! t = Some c;
  ext_instances : forall l, is_Some (heap w !! l) -> instances w' !! l = instances w !! l
}.

(** A computation that keeps worlds well formed and only lets them grow. *)
Definition sound (valid_custom_name : string -> bool) {A} (m : M A) : Prop :=
  forall w, world_ok valid_custom_name w ->
    world_ok valid_custom_name (post (m w)) /\ extends w (post (m w)).

(** The world before the module is evaluated. *)
Definition empty_world : World := MkWorld ∅ ∅ ∅ ∅ [].

(** The top-level calls of a trace, without what the callees did. *)
Definition calls_of (t : list event) : list (value * list value) :=
  omap (fun ev => match ev with EvCall f args _ => Some (f, args) | _ => None end) t.

Definition defines_of (t : list event) : list string :=
  omap (fun ev => match ev with EvDefine tag _ => Some tag | _ => None end) t.

(** What a guarded call site [if (typeof f === "function") { f(); }] comes
    to, with [call] running the function. *)
Definition guarded_call (call : value -> list value -> M value)
    (w : World) (f : value) : result unit :=
  if String.eqb (typeof w f) "function" then
    Res (void (out (call f [] w))) (post (call f [] w))
        [EvCall f [] (trace (call f [] w))]
  else Res (Ok tt) w [].

(** ** A small application, to run the module on

    A naming rule in the spirit of the platform's (a lower-case letter
    first, a hyphen somewhere), a table of application functions, and the
    worlds they lead to. *)

Definition is_lower (a : ascii) : bool :=
  let n := nat_of_ascii a in (97 <=? n)%nat && (n <=? 122)%nat.

Fixpoint has_hyphen (t : string) : bool :=
  match t with
  | EmptyString => false
  | String a rest => Ascii.eqb a "-"%char || has_hyphen rest
  end.

Definition demo_custom_name (t : string) : bool :=
  match t with
  | EmptyString => false
  | String a rest => is_lower a && has_hyphen rest
  end.

Definition demo_local_name (t : string) : bool :=
  match t with
  | EmptyString => false
  | String a _ => is_lower a
  end.

Definition bump (v : value) : value :=
  match v with
  | VNum n => VNum (n + 1)
  | _ => v
  end.

Definition demo_fns (id : nat) (env args : list value) : prog :=
  match id with
  | 0 => (* create(element, params): return {connect, disconnect}; *)
      PDo (ONewFunction 1 env) (fun connect =>
      PDo (ONewFunction 2 env) (fun disconnect =>
      PDo (ONewObject [("connect", connect); ("disconnect", disconnect)]) PRet))
  | 1 => (* connect(): counter.n += 1, the counter being the first captured value *)
      PDo (OGet (hd VUndefined env) "n") (fun n =>
      PDo (OSet (hd VUndefined env) "n" (bump n)) (fun _ => PRet VUndefined))
  | 2 => (* disconnect(): nothing *)
      PRet VUndefined
  | 3 => (* create(element, params): document.body.append(element); *)
      PDo (OAttach (hd VUndefined args)) (fun _ => PRet VUndefined)
  | 4 => (* create(element, params): child = make_child(); throw "boom"; *)
      PDo (OCall (hd VUndefined env) [VUndefined]) (fun _ => PThrow (VStr "boom"))
  | 5 => (* create(element, params): return {connect: "soon", disconnect: 7}; *)
      PDo (ONewObject [("connect", VStr "soon"); ("disconnect", VNum 7)]) PRet
  | _ => (* create(element, params): return nothing *)
      PRet VUndefined
  end.

Definition demo_call (n : nat) : value -> list value -> M value :=
  call_fuel demo_custom_name demo_local_name demo_fns n.

Definition demo_run (n : nat) (p : prog) : M value :=
  run demo_custom_name demo_local_name (demo_call n) p.

(** The world once the module has been evaluated; the export [ui] is the
    function object at address 1. *)
Definition world0 : World := post (module_init empty_world).

(** The setting of an initializer that puts its own element into the
    document: the function [create] (address 2) and the [make_element]
    function [ui] returns for it (address 3). *)
Definition setup_attaching : prog :=
  PDo (ONewFunction 3 []) (fun create =>
  PDo (OCall (VRef 1) [VStr "x-panel"; create]) PRet).

Definition world_attaching : World := post (demo_run 3 setup_attaching world0).

(** The setting of an initializer that builds a child element and then
    throws: the child's initializer (address 2) and [make_element] function
    (address 3), the throwing initializer (address 4) closed over the
    latter, and its own [make_element] function (address 5). *)
Definition setup_throwing : prog :=
  PDo (ONewFunction 6 []) (fun create_child =>
  PDo (OCall (VRef 1) [VStr "x-child"; create_child]) (fun make_child =>
  PDo (ONewFunction 4 [make_child]) (fun create =>
  PDo (OCall (VRef 1) [VStr "x-parent"; create]) PRet))).

Definition world_throwing : World := post (demo_run 3 setup_throwing world0).

(** A counting component: [counter] (address 2) is an object [{n: 0}], the
    initializer (address 3) returns a handle whose [connect] adds one to
    [counter.n], [make] is at address 4, and one instance is made: the
    element at address 5, with [connect] at 6, [disconnect] at 7 and the
    handle at 8. *)
Definition setup_counter : prog :=
  PDo (ONewObject [("n", VNum 0)]) (fun counter =>
  PDo (ONewFunction 0 [counter]) (fun create =>
  PDo (OCall (VRef 1) [VStr "x-counter"; create]) (fun make =>
  PDo (OCall make [VNull]) PRet))).

Definition world_counter : World := post (demo_run 4 setup_counter world0).

(** The scenario of the counting component: three instances are made and
    attached, then the first is detached and attached again; the result is
    an object with the two readings of [counter.n], after the third attach
    and at the end. *)
Definition counter_scenario : prog :=
  PDo (ONewObject [("n", VNum 0)]) (fun counter =>
  PDo (ONewFunction 0 [counter]) (fun create =>
  PDo (OCall (VRef 1) [VStr "x-counter"; create]) (fun make =>
  PDo (OCall make [VNull]) (fun a =>
  PDo (OCall make [VNull]) (fun b =>
  PDo (OCall make [VNull]) (fun c =>
  PDo (OAttach a) (fun _ =>
  PDo (OAttach b) (fun _ =>
  PDo (OAttach c) (fun _ =>
  PDo (OGet counter "n") (fun n1 =>
  PDo (ODetach a) (fun _ =>
  PDo (OAttach a) (fun _ =>
  PDo (OGet counter "n") (fun n2 =>
  PDo (ONewObject [("after_three", n1); ("at_end", n2)]) PRet))))))))))))).

(** An instance whose handle has fields that are no functions: the
    initializer is at address 2, [make] at 3, the element at 4 and the
    handle [{connect: "soon", disconnect: 7}] at 5. *)
Definition setup_odd : prog :=
  PDo (ONewFunction 5 []) (fun create =>
  PDo (OCall (VRef 1) [VStr "x-odd"; create]) (fun make =>
  PDo (OCall make [VNull]) PRet)).

Definition world_odd : World := post (demo_run 4 setup_odd world0).

(** An instance whose initializer returns nothing: the initializer is at
    address 2, [make] at 3 and the element at 4. *)
Definition setup_bare : prog :=
  PDo (ONewFunction 6 []) (fun create =>
  PDo (OCall (VRef 1) [VStr "x-bare"; create]) (fun make =>
  PDo (OCall make [VNull]) PRet)).

Definition world_bare : World := post (demo_run 4 setup_bare world0).

(** Two initializers, at addresses 2 and 3. *)
Definition setup_two : prog :=
  PDo (ONewFunction 6 []) (fun _ => PDo (ONewFunction 5 []) PRet).

Definition world_two : World := post (demo_run 2 setup_two world0).

(** A tag registered by other code, with a [connectedCallback] (the
    function at address 2) and no [disconnectedCallback]. *)
Definition setup_foreign : prog :=
  PDo (ONewFunction 2 []) (fun cb =>
  PDo (ODefine "x-foreign" cb VUndefined) PRet).

Definition world_foreign : World := post (demo_run 2 setup_foreign world0).

(** A program that tries to patch the function at address 4. *)
Definition patch_attempt : prog :=
  PTry (PDo (OSet (VRef 4) "patched" (VBool true)) PRet) (fun _ => PRet VNull)
       (fun _ => PTry (PDo (ODelete (VRef 4) "patched") PRet) (fun _ => PRet VNull)
                   PRet).

(** Attach, detach and attach again the element at address 5. *)
Definition cycle_5 : prog :=
  PDo (OAttach (VRef 5)) (fun _ =>
  PDo (ODetach (VRef 5)) (fun _ =>
  PDo (OAttach (VRef 5)) PRet)).

(** The two statements about [make_element] that are put to the test
    below, as they are worded: the element returned is in no document; when
    the initializer throws, [instances] is what it was before the call. *)
Definition returns_unattached (r : result value) : Prop :=
  forall e, out r = Ok (VRef e) -> e ∉ document (post r).

Definition throw_keeps_instances (w : World) (r : result value) : Prop :=
  forall err, out r = Throw err -> instances (post r) = instances w.

(** An element of a tag registered by [ui] that no [make_element] made:
    the initializer is at address 2, [make] at 3, and the element, from
    [document.createElement], at 4. *)
Definition setup_direct : prog :=
  PDo (ONewFunction 6 []) (fun create =>
  PDo (OCall (VRef 1) [VStr "x-bare"; create]) (fun _ =>
  PDo (OCreateElement "x-bare") PRet)).

Definition world_direct : World := post (demo_run 3 setup_direct world0).

(** ** Basic facts *)

Ltac unfold_M :=
  unfold mbind, M_bind, mret, M_ret, bind, ret, throw, catch, report,
         get_world, modify in *.

Lemma extends_refl w : extends w w.
Proof.
  split; [|done..]. intros l o H. exists o. done.
Qed.

Lemma extends_trans w1 w2 w3 : extends w1 w2 -> extends w2 w3 -> extends w1 w3.
Proof.
  intros [H1 R1 I1] [H2 R2 I2]. split.
  - intros l o Hl. destruct (H1 l o Hl) as (o' & Hl' & Hk & Hf).
    destruct (H2 l o' Hl') as (o'' & Hl'' & Hk' & Hf').
    exists o''. split; [done|]. split; [congruence|].
    intros Hfr. specialize (Hf Hfr). subst o'. auto.
  - auto.
  - intros l Hl. rewrite I2, I1; [done..|].
    destruct Hl as [o Hl]. destruct (H1 l o Hl) as (o' & -> & _). done.
Qed.

Section Soundness.

Variable valid_custom_name : string -> bool.
Variable valid_local_name : string -> bool.

Local Abbreviation ok := (world_ok valid_custom_name).
Local Abbreviation good := (@sound valid_custom_name _).

Lemma sound_ret {A} (a : A) : good (ret a).
Proof. intros w Hw. split; [done|apply extends_refl]. Qed.

Lemma sound_throw {A} err : good (@throw A err).
Proof. intros w Hw. split; [done|apply extends_refl]. Qed.

Lemma sound_bind {A B} (m : M A) (f : A -> M B) :
  good m -> (forall a, good (f a)) -> good (bind m f).
Proof.
  intros Hm Hf w Hw. destruct (Hm w Hw) as [Hok Hext].
  unfold bind. destruct (out (m w)) as [a| |]; simpl; [|done..].
  destruct (Hf a _ Hok) as [Hok' Hext']. split; [done|].
  by eapply extends_trans.
Qed.

Lemma sound_catch {A} (m : M A) (h : value -> M A) :
  good m -> (forall err, good (h err)) -> good (catch m h).
Proof.
  intros Hm Hh w Hw. destruct (Hm w Hw) as [Hok Hext].
  unfold catch. destruct (out (m w)) as [a|err|]; simpl; [done| |done].
  destruct (Hh err _ Hok) as [Hok' Hext']. split; [done|].
  by eapply extends_trans.
Qed.

Lemma sound_report (m : M unit) : good m -> good (report m).
Proof.
  intros Hm w Hw. destruct (Hm w Hw) as [[H1 H2 H3 H4] [E1 E2 E3]].
  unfold report. destruct (out (m w)); simpl; [done| |done].
  split; split; simpl; done.
Qed.

Lemma fresh_heap (w : World) : heap w !! fresh (dom (heap w)) = None.
Proof. apply not_elem_of_dom, is_fresh. Qed.

Lemma ok_alloc w l o :
  ok w -> heap w !! l = None ->
  (forall t c, okind o = KFunction (CMakeElement t c) -> is_Some (registry w !! t)) ->
  ok (set_heap (<[l := o]> (heap w)) w).
Proof.
  intros [H1 H2 H3 H4] Hl Ho. split; simpl.
  - done.
  - intros l' Hl'. rewrite lookup_insert_is_Some. destruct (decide (l = l')); auto.
  - intros l' Hl'. rewrite lookup_insert_is_Some. destruct (decide (l = l')); auto.
  - intros l' o' t c. rewrite lookup_insert. case_decide.
    + intros [= <-]. apply Ho.
    + apply H4.
Qed.

Lemma extends_alloc w l o :
  heap w !! l = None -> extends w (set_heap (<[l := o]> (heap w)) w).
Proof.
  intros Hl. split; simpl; [|done..].
  intros l' o' Hl'. exists o'. rewrite lookup_insert_ne by congruence. done.
Qed.

Lemma ok_update w l o o' :
  ok w -> heap w !! l = Some o -> okind o' = okind o ->
  ok (set_heap (<[l := o']> (heap w)) w).
Proof.
  intros [H1 H2 H3 H4] Hl Hk. split; simpl.
  - done.
  - intros l' Hl'. rewrite lookup_insert_is_Some. destruct (decide (l = l')); auto.
  - intros l' Hl'. rewrite lookup_insert_is_Some. destruct (decide (l = l')); auto.
  - intros l' o'' t c. rewrite lookup_insert. case_decide.
    + intros [= <-] Hc. apply (H4 l o t c); [exact Hl|congruence].
    + apply H4.
Qed.

Lemma extends_update w l o o' :
  heap w !! l = Some o -> okind o' = okind o -> (frozen o = true -> o' = o) ->
  extends w (set_heap (<[l := o']> (heap w)) w).
Proof.
  intros Hl Hk Hf. split; simpl; [|done..].
  intros l' o'' Hl'. rewrite lookup_insert. case_decide.
  - subst l'. assert (o'' = o) as -> by congruence.
    exists o'. done.
  - exists o''. done.
Qed.

Lemma sound_alloc o :
  (forall t c, okind o <> KFunction (CMakeElement t c)) -> good (alloc o).
Proof.
  intros Ho w Hw. unfold alloc; simpl. split.
  - apply ok_alloc; [done|apply fresh_heap|]. intros t c Hk. by destruct (Ho t c).
  - apply extends_alloc, fresh_heap.
Qed.

Lemma sound_freeze v : good (Object_freeze v).
Proof.
  intros w Hw. unfold Object_freeze.
  destruct v as [| | | | | |l]; try (split; [done|apply extends_refl]).
  destruct (heap w !! l) as [o|] eqn:Hl; simpl; [|split; [done|apply extends_refl]].
  split.
  - by eapply ok_update.
  - eapply extends_update; [done..|]. destruct o as [p [] k]; simpl; done.
Qed.

Lemma sound_get_prop o key : good (get_prop o key).
Proof.
  intros w Hw. unfold get_prop.
  destruct o; simpl; (split; [done|apply extends_refl]).
Qed.

Lemma sound_set_prop o key v : good (set_prop o key v).
Proof.
  intros w Hw. unfold set_prop.
  destruct o as [| | | | | |l]; try (split; [done|apply extends_refl]).
  destruct (heap w !! l) as [ob|] eqn:Hl; simpl; [|split; [done|apply extends_refl]].
  destruct (frozen ob) eqn:Hf; simpl; [split; [done|apply extends_refl]|].
  split.
  - by eapply ok_update.
  - eapply extends_update; [done..|]. congruence.
Qed.

Lemma sound_delete_prop o key : good (delete_prop o key).
Proof.
  intros w Hw. unfold delete_prop.
  destruct o as [| | | | | |l]; try (split; [done|apply extends_refl]).
  destruct (heap w !! l) as [ob|] eqn:Hl; simpl; [|split; [done|apply extends_refl]].
  case_decide; [|split; [done|apply extends_refl]].
  destruct (frozen ob) eqn:Hf; simpl; [split; [done|apply extends_refl]|].
  split.
  - by eapply ok_update.
  - eapply extends_update; [done..|]. congruence.
Qed.

Lemma sound_define tag c : good (customElements_define valid_custom_name tag c).
Proof.
  intros w Hw. unfold customElements_define.
  destruct (valid_custom_name tag) eqn:Hv; simpl; [|split; [done|apply extends_refl]].
  case_decide as Hr; simpl; [split; [done|apply extends_refl]|].
  destruct Hw as [H1 H2 H3 H4]. split; split; simpl; try done.
  - intros t c'. rewrite lookup_insert. case_decide; [congruence|apply H1].
  - intros l o t c' Hl Hk. rewrite lookup_insert_is_Some.
    destruct (decide (tag = t)); [by left|right]. split; [done|]. eauto.
  - intros l o Hl. exists o. done.
  - intros t c' Ht. rewrite lookup_insert_ne; [done|].
    intros ->. apply Hr. eauto.
Qed.

Lemma sound_createElement tag : good (document_createElement valid_local_name tag).
Proof.
  intros w Hw. unfold document_createElement.
  destruct (valid_local_name tag); simpl; [|split; [done|apply extends_refl]].
  split.
  - apply ok_alloc; [done|apply fresh_heap|]. simpl. congruence.
  - apply extends_alloc, fresh_heap.
Qed.

Lemma sound_instances_get key : good (instances_get key).
Proof. intros w Hw. split; [done|apply extends_refl]. Qed.

Lemma sound_get_world : good get_world.
Proof. intros w Hw. split; [done|apply extends_refl]. Qed.

End Soundness.

(** ** The module keeps worlds well formed

    The facts of this section hold for the module's code whenever the
    function values it calls are themselves [sound]. *)

Section LibrarySound.

Variable valid_custom_name : string -> bool.
Variable valid_local_name : string -> bool.
Variable call : value -> list value -> M value.

Local Abbreviation ok := (world_ok valid_custom_name).
Local Abbreviation good := (@sound valid_custom_name _).

Hypothesis call_sound : forall f args, good (call f args).

Lemma sound_invoke f args : good (invoke call f args).
Proof. intros w Hw. unfold invoke; simpl. by apply call_sound. Qed.

Lemma sound_connectedCallback e : good (connectedCallback call e).
Proof.
  unfold connectedCallback.
  apply sound_bind; [apply sound_instances_get|intros h].
  apply sound_bind; [apply sound_get_world|intros w].
  destruct (String.eqb _ _); [|apply sound_ret].
  apply sound_bind; [apply sound_invoke|intros _; apply sound_ret].
Qed.

Lemma sound_disconnectedCallback e : good (disconnectedCallback call e).
Proof.
  unfold disconnectedCallback.
  apply sound_bind; [apply sound_instances_get|intros h].
  apply sound_bind; [apply sound_get_world|intros w].
  destruct (String.eqb _ _); [|apply sound_ret].
  apply sound_bind; [apply sound_invoke|intros _; apply sound_ret].
Qed.

Lemma sound_connected_reaction e : good (connected_reaction call e).
Proof.
  intros w Hw. unfold connected_reaction.
  destruct (definition_of w e) as [[|c d]|].
  - by apply sound_connectedCallback.
  - case_decide; [by apply (sound_ret valid_custom_name)|].
    apply (sound_bind valid_custom_name);
      [apply sound_invoke|intros _; apply sound_ret|done].
  - by apply (sound_ret valid_custom_name).
Qed.

Lemma sound_disconnected_reaction e : good (disconnected_reaction call e).
Proof.
  intros w Hw. unfold disconnected_reaction.
  destruct (definition_of w e) as [[|c d]|].
  - by apply sound_disconnectedCallback.
  - case_decide; [by apply (sound_ret valid_custom_name)|].
    apply (sound_bind valid_custom_name);
      [apply sound_invoke|intros _; apply sound_ret|done].
  - by apply (sound_ret valid_custom_name).
Qed.

Lemma ok_set_document w d :
  ok w -> (forall l, l ∈ d -> is_Some (heap w !! l)) -> ok (set_document d w).
Proof. intros [H1 H2 H3 H4] Hd. split; simpl; done. Qed.

Lemma extends_set_document w d : extends w (set_document d w).
Proof. split; simpl; [|done..]. intros l o Hl. by exists o. Qed.

Lemma sound_attach e w :
  ok w -> is_Some (heap w !! e) ->
  ok (post (attach call e w)) /\ extends w (post (attach call e w)).
Proof.
  intros Hw He. unfold attach. case_decide; [split; [done|apply extends_refl]|].
  set (w1 := set_document ({[e]} ∪ document w) w).
  assert (ok w1) as Hw1.
  { apply ok_set_document; [done|].
    intros l [->%elem_of_singleton|Hl]%elem_of_union; [done|].
    by apply (ok_document _ _ Hw). }
  destruct (sound_report _ _ (sound_connected_reaction e) w1 Hw1) as [Hok Hext].
  unfold_M; simpl. fold w1.
  destruct (out (report (connected_reaction call e) w1)); simpl.
  all: split; [done|].
  all: eapply extends_trans; [apply extends_set_document|exact Hext].
Qed.

Lemma sound_detach e w :
  ok w -> ok (post (detach call e w)) /\ extends w (post (detach call e w)).
Proof.
  intros Hw. unfold detach. case_decide; [|split; [done|apply extends_refl]].
  set (w1 := set_document (document w ∖ {[e]}) w).
  assert (ok w1) as Hw1.
  { apply ok_set_document; [done|].
    intros l [Hl _]%elem_of_difference. by apply (ok_document _ _ Hw). }
  destruct (sound_report _ _ (sound_disconnected_reaction e) w1 Hw1) as [Hok Hext].
  unfold_M; simpl. fold w1.
  destruct (out (report (disconnected_reaction call e) w1)); simpl.
  all: split; [done|].
  all: eapply extends_trans; [apply extends_set_document|exact Hext].
Qed.

Lemma sound_make_element tag create params :
  good (make_element valid_local_name call tag create params).
Proof.
  intros w Hw. unfold make_element, document_createElement. unfold_M.
  destruct (valid_local_name tag); simpl; [|split; [done|apply extends_refl]].
  set (e := fresh (dom (heap w))).
  set (w1 := set_heap _ w).
  assert (heap w !! e = None) as He by apply fresh_heap.
  assert (ok w1) as Hw1.
  { apply ok_alloc; [done..|]. simpl. congruence. }
  assert (extends w w1) as Hext1 by by apply extends_alloc.
  destruct (call_sound create [VRef e; params] w1 Hw1) as [Hok2 Hext2].
  unfold invoke; simpl.
  destruct (out (call create [VRef e; params] w1)) as [h| |]; simpl.
  2,3: split; [done|by eapply extends_trans].
  set (w2 := post (call create [VRef e; params] w1)) in *.
  assert (extends w w2) as [E1 E2 E3] by by eapply extends_trans.
  split.
  - destruct Hok2 as [H1 H2 H3 H4]. split; simpl; try done.
    intros l. rewrite lookup_insert_is_Some. intros [<-|[_ Hl]]; [|by apply H2].
    destruct (ext_heap _ _ Hext2 e (Obj ∅ false (KElement tag (registry w !! tag))))
      as (o' & -> & _); [|done].
    unfold w1; simpl. apply lookup_insert_eq.
  - split; simpl; [done..|].
    intros l Hl. rewrite lookup_insert_ne; [by apply E3|].
    intros <-. rewrite He in Hl. by destruct Hl.
Qed.

(** The three ways a call of [ui] can go. *)
Lemma ui_registered tag create w c :
  registry w !! tag = Some c ->
  ui valid_custom_name tag create w =
  Res (Ok (VRef (fresh (dom (heap w)))))
      (set_heap (<[fresh (dom (heap w)) :=
                   Obj ∅ true (KFunction (CMakeElement tag create))]> (heap w)) w)
      [].
Proof.
  intros Hreg. unfold ui, customElements_get.
  unfold new_function, mbind, M_bind, mret, M_ret, bind, ret, alloc, Object_freeze.
  simpl. rewrite Hreg; simpl. rewrite lookup_insert_eq; simpl.
  by rewrite insert_insert_eq.
Qed.

Lemma ui_unregistered tag create w :
  registry w !! tag = None -> valid_custom_name tag = true ->
  ui valid_custom_name tag create w =
  Res (Ok (VRef (fresh (dom (heap w)))))
      (set_heap (<[fresh (dom (heap w)) :=
                   Obj ∅ true (KFunction (CMakeElement tag create))]> (heap w))
         (set_registry (<[tag := UiClass]> (registry w)) w))
      [EvDefine tag UiClass].
Proof.
  intros Hreg Hv. unfold ui, customElements_get.
  unfold new_function, mbind, M_bind, mret, M_ret, bind, ret, alloc, Object_freeze,
    customElements_define; simpl.
  rewrite Hreg, Hv; simpl.
  case_decide as Hr; [rewrite Hreg in Hr; by destruct Hr|]; simpl.
  rewrite lookup_insert_eq; simpl. by rewrite insert_insert_eq.
Qed.

Lemma ui_invalid tag create w :
  registry w !! tag = None -> valid_custom_name tag = false ->
  ui valid_custom_name tag create w =
  Res (Throw (VError "SyntaxError")) w [EvDefine tag UiClass].
Proof.
  intros Hreg Hv. unfold ui, customElements_get.
  unfold mbind, M_bind, bind, customElements_define; simpl.
  by rewrite Hreg, Hv.
Qed.

Lemma sound_ui tag create : good (ui valid_custom_name tag create).
Proof.
  intros w Hw.
  destruct (registry w !! tag) as [c|] eqn:Hreg.
  - erewrite ui_registered by done; simpl. split.
    + apply ok_alloc; [done|apply fresh_heap|]. simpl.
      intros t c' Heq. simplify_eq. eauto.
    + apply extends_alloc, fresh_heap.
  - destruct (valid_custom_name tag) eqn:Hv.
    + rewrite ui_unregistered by done; simpl.
      pose proof (sound_define valid_custom_name tag UiClass w Hw) as Hd.
      unfold customElements_define in Hd. rewrite Hv in Hd. simpl in Hd.
      destruct (decide (is_Some (registry w !! tag))) as [Hr|Hr].
      { rewrite Hreg in Hr. by destruct Hr. }
      simpl in Hd. destruct Hd as [Hok Hext].
      set (w1 := set_registry _ w) in *. split.
      * apply (ok_alloc _ w1); [done|exact (fresh_heap w)|]. simpl.
        intros t c' Heq. simplify_eq. rewrite lookup_insert_eq. eauto.
      * eapply extends_trans; [exact Hext|].
        apply (extends_alloc w1). exact (fresh_heap w).
    + rewrite ui_invalid by done. simpl. split; [done|apply extends_refl].
Qed.

Lemma make_function_registered w m o t c :
  ok w -> heap w !! m = Some o -> okind o = KFunction (CMakeElement t c) ->
  is_Some (registry w !! t) /\ valid_custom_name t = true.
Proof.
  intros Hw Hm Hk. destruct (ok_makers _ _ Hw m o t c Hm Hk) as [d Hd].
  split; [eauto|]. by apply (ok_registry _ _ Hw t d).
Qed.

Lemma sound_new_function c :
  (forall t v, c <> CMakeElement t v) -> good (new_function c).
Proof.
  intros Hc. unfold new_function.
  apply sound_bind; [|intros l; apply sound_ret].
  apply sound_alloc. simpl. intros t v Hk. simplify_eq. by destruct (Hc t v).
Qed.

Lemma is_element_heap w v e : is_element w v = Some e -> is_Some (heap w !! e).
Proof.
  unfold is_element, tag_of. destruct v as [| | | | | |l]; try done.
  destruct (heap w !! l) as [o|] eqn:Hl; simpl; [|done].
  destruct (okind o); try done. intros [= <-]. eauto.
Qed.

Lemma sound_do_op o : good (do_op valid_custom_name valid_local_name call o).
Proof.
  destruct o; simpl.
  - apply sound_invoke.
  - apply sound_bind; [by apply sound_alloc|intros l; apply sound_ret].
  - by apply sound_new_function.
  - apply sound_get_prop.
  - apply sound_set_prop.
  - apply sound_delete_prop.
  - apply sound_freeze.
  - apply sound_bind; [apply sound_get_world|intros w; apply sound_ret].
  - apply sound_bind; [apply sound_createElement|intros l; apply sound_ret].
  - apply sound_bind; [apply sound_define|intros _; apply sound_ret].
  - intros w Hw. unfold mbind, M_bind, bind, get_world; simpl.
    destruct (is_element w e) as [l|] eqn:He; [|split; [done|apply extends_refl]].
    destruct (sound_attach l w Hw (is_element_heap _ _ _ He)) as [Hok Hext].
    destruct (out (attach call l w)); simpl; done.
  - intros w Hw. unfold mbind, M_bind, bind, get_world; simpl.
    destruct (is_element w e) as [l|] eqn:He; [|split; [done|apply extends_refl]].
    destruct (sound_detach l w Hw) as [Hok Hext].
    destruct (out (detach call l w)); simpl; done.
  - intros w Hw. unfold mbind, M_bind, bind, get_world; simpl.
    destruct (is_element w e) as [l|]; simpl; (split; [done|apply extends_refl]).
  - destruct this; try apply sound_ret.
    apply sound_bind; [apply sound_connectedCallback|intros _; apply sound_ret].
  - destruct this; try apply sound_ret.
    apply sound_bind; [apply sound_disconnectedCallback|intros _; apply sound_ret].
Qed.

Lemma sound_run p : good (run valid_custom_name valid_local_name call p).
Proof.
  induction p as [v|err|o k IH|body IHb handler IHh k IHk]; simpl.
  - apply sound_ret.
  - apply sound_throw.
  - apply sound_bind; [apply sound_do_op|done].
  - apply sound_bind; [|done]. by apply sound_catch.
Qed.

End LibrarySound.

(** ** Every application program keeps worlds well formed *)

Section ApplicationSound.

Variable valid_custom_name : string -> bool.
Variable valid_local_name : string -> bool.
Variable fns : nat -> list value -> list value -> prog.

Local Abbreviation callN := (call_fuel valid_custom_name valid_local_name fns).

Lemma sound_call_fuel n f args : sound valid_custom_name (callN n f args).
Proof.
  revert f args. induction n as [|n IH]; intros f args w Hw; simpl.
  { split; [done|apply extends_refl]. }
  destruct f as [| | | | | |l]; try (split; [done|apply extends_refl]).
  destruct (okind <$> heap w !! l) as [[|[|tag create|id env]|]|];
    try (split; [done|apply extends_refl]).
  - destruct args as [|[| | | |tag| |] rest]; try (split; [done|apply extends_refl]).
    by apply (sound_ui valid_custom_name).
  - by apply (sound_make_element valid_custom_name valid_local_name).
  - by apply (sound_run valid_custom_name valid_local_name).
Qed.

Lemma sound_program n p :
  sound valid_custom_name (run valid_custom_name valid_local_name (callN n) p).
Proof. apply sound_run, sound_call_fuel. Qed.

End ApplicationSound.

(** ** The lifecycle callbacks *)

Section Callbacks.

Variable call : value -> list value -> M value.

Lemma connectedCallback_eq e w :
  connectedCallback call e w =
  guarded_call call w
    (optional_get w (default VUndefined (instances w !! e)) "connect").
Proof.
  unfold connectedCallback, guarded_call, instances_get, invoke. unfold_M. simpl.
  destruct (String.eqb _ _); [|done]. simpl.
  destruct (out (call _ _ _)); simpl; by rewrite ?app_nil_r.
Qed.

Lemma disconnectedCallback_eq e w :
  disconnectedCallback call e w =
  guarded_call call w
    (optional_get w (default VUndefined (instances w !! e)) "disconnect").
Proof.
  unfold disconnectedCallback, guarded_call, instances_get, invoke. unfold_M. simpl.
  destruct (String.eqb _ _); [|done]. simpl.
  destruct (out (call _ _ _)); simpl; by rewrite ?app_nil_r.
Qed.

Lemma guarded_call_function w f :
  typeof w f = "function" ->
  guarded_call call w f =
  Res (void (out (call f [] w))) (post (call f [] w)) [EvCall f [] (trace (call f [] w))].
Proof. intros H. unfold guarded_call. by rewrite H. Qed.

Lemma guarded_call_other w f :
  typeof w f <> "function" -> guarded_call call w f = Res (Ok tt) w [].
Proof.
  intros H. unfold guarded_call.
  destruct (String.eqb_spec (typeof w f) "function"); done.
Qed.

Lemma typeof_function w v :
  typeof w v = "function" <->
  exists l o c, v = VRef l /\ heap w !! l = Some o /\ okind o = KFunction c.
Proof.
  split.
  - destruct v as [| | | | | |l]; simpl; try done.
    destruct (heap w !! l) as [o|] eqn:Hl; simpl; [|done].
    destruct (okind o) eqn:Hk; try done. intros _. by exists l, o, c.
  - intros (l & o & c & -> & Hl & Hk). simpl. by rewrite Hl; simpl; rewrite Hk.
Qed.

Lemma optional_get_nullish w key v :
  v = VUndefined \/ v = VNull -> optional_get w v key = VUndefined.
Proof. by intros [-> | ->]. Qed.

Lemma result_eta {A} (r : result A) : Res (out r) (post r) (trace r) = r.
Proof. by destruct r. Qed.

Lemma trace_report (m : M unit) w : trace (report m w) = trace (m w).
Proof. unfold report. by destruct (out (m w)). Qed.

(** The two transitions of an element created with the class of [ui]. *)
Lemma attach_ui_element e w :
  definition_of w e = Some UiClass -> e ∉ document w ->
  attach call e w =
  report (connectedCallback call e) (set_document ({[e]} ∪ document w) w).
Proof.
  intros Hd He. unfold attach. case_decide; [done|].
  unfold mbind, M_bind, bind, modify; simpl.
  set (w1 := set_document _ w).
  assert (report (connected_reaction call e) w1 = report (connectedCallback call e) w1)
    as ->.
  { unfold report, connected_reaction.
    change (definition_of w1 e) with (definition_of w e). by rewrite Hd. }
  apply result_eta.
Qed.

Lemma detach_ui_element e w :
  definition_of w e = Some UiClass -> e ∈ document w ->
  detach call e w =
  report (disconnectedCallback call e) (set_document (document w ∖ {[e]}) w).
Proof.
  intros Hd He. unfold detach. case_decide; [|done].
  unfold mbind, M_bind, bind, modify; simpl.
  set (w1 := set_document _ w).
  assert (report (disconnected_reaction call e) w1
          = report (disconnectedCallback call e) w1) as ->.
  { unfold report, disconnected_reaction.
    change (definition_of w1 e) with (definition_of w e). by rewrite Hd. }
  apply result_eta.
Qed.

(** C3: the attach callback reads the handle of the instance and calls its
    [connect] procedure, with no arguments, when there is one; the detach
    callback does the same with [disconnect].  With no handle recorded, with
    a handle that is [undefined] or [null], or with a handle that has no such
    field, the callback returns normally and changes nothing, and the
    transition of the element only moves it into or out of the document. *)
Theorem lifecycle_callbacks (e : loc) (w : World) :
  let handle := default VUndefined (instances w !! e) in
  let connect := optional_get w handle "connect" in
  let disconnect := optional_get w handle "disconnect" in
  (typeof w connect = "function" ->
     connectedCallback call e w =
     Res (void (out (call connect [] w))) (post (call connect [] w))
         [EvCall connect [] (trace (call connect [] w))]) /\
  (typeof w disconnect = "function" ->
     disconnectedCallback call e w =
     Res (void (out (call disconnect [] w))) (post (call disconnect [] w))
         [EvCall disconnect [] (trace (call disconnect [] w))]) /\
  (instances w !! e = None \/ handle = VUndefined \/ handle = VNull \/
   connect = VUndefined ->
     connectedCallback call e w = Res (Ok tt) w [] /\
     (definition_of w e = Some UiClass -> e ∉ document w ->
      attach call e w = Res (Ok tt) (set_document ({[e]} ∪ document w) w) [])) /\
  (instances w !! e = None \/ handle = VUndefined \/ handle = VNull \/
   disconnect = VUndefined ->
     disconnectedCallback call e w = Res (Ok tt) w [] /\
     (definition_of w e = Some UiClass -> e ∈ document w ->
      detach call e w = Res (Ok tt) (set_document (document w ∖ {[e]}) w) [])).
Proof.
  intros handle connect disconnect.
  assert (forall key, instances w !! e = None \/ handle = VUndefined \/
                      handle = VNull \/ optional_get w handle key = VUndefined ->
                      optional_get w handle key = VUndefined) as Habsent.
  { intros key [H|[H|[H|H]]]; [|by apply optional_get_nullish; left
                                |by apply optional_get_nullish; right|done].
    apply optional_get_nullish. left. unfold handle. by rewrite H. }
  split; [|split; [|split]].
  - rewrite connectedCallback_eq. apply guarded_call_function.
  - rewrite disconnectedCallback_eq. apply guarded_call_function.
  - intros H%Habsent. fold connect in H.
    assert (forall w1, heap w1 = heap w -> instances w1 = instances w ->
                       connectedCallback call e w1 = Res (Ok tt) w1 []) as Hnoop.
    { intros w1 Hh Hi. rewrite connectedCallback_eq, Hi.
      change (optional_get w1 ?v ?k) with
        (match v with
         | VRef l => match heap w1 !! l with
                     | Some o => default VUndefined (props o !! k)
                     | None => VUndefined
                     end
         | _ => VUndefined
         end).
      rewrite Hh. change (guarded_call call w1 connect = Res (Ok tt) w1 []).
      apply guarded_call_other. by rewrite H. }
    split; [by apply Hnoop|].
    intros Hd He. rewrite attach_ui_element by done.
    unfold report. by rewrite Hnoop.
  - intros H%Habsent. fold disconnect in H.
    assert (forall w1, heap w1 = heap w -> instances w1 = instances w ->
                       disconnectedCallback call e w1 = Res (Ok tt) w1 []) as Hnoop.
    { intros w1 Hh Hi. rewrite disconnectedCallback_eq, Hi.
      change (optional_get w1 ?v ?k) with
        (match v with
         | VRef l => match heap w1 !! l with
                     | Some o => default VUndefined (props o !! k)
                     | None => VUndefined
                     end
         | _ => VUndefined
         end).
      rewrite Hh. change (guarded_call call w1 disconnect = Res (Ok tt) w1 []).
      apply guarded_call_other. by rewrite H. }
    split; [by apply Hnoop|].
    intros Hd He. rewrite detach_ui_element by done.
    unfold report. by rewrite Hnoop.
Qed.

(** C10: a [connect] or [disconnect] field is called if and only if its
    [typeof] is ["function"].  A field holding anything else (a string, a
    number, an object that is no function) is not called and the callback
    returns normally, leaving the world as it was. *)
Theorem callbacks_call_functions_only (e : loc) (w : World) :
  let handle := default VUndefined (instances w !! e) in
  let connect := optional_get w handle "connect" in
  let disconnect := optional_get w handle "disconnect" in
  (calls_of (trace (connectedCallback call e w)) = [(connect, [])] <->
     typeof w connect = "function") /\
  (calls_of (trace (disconnectedCallback call e w)) = [(disconnect, [])] <->
     typeof w disconnect = "function") /\
  (typeof w connect <> "function" ->
     connectedCallback call e w = Res (Ok tt) w []) /\
  (typeof w disconnect <> "function" ->
     disconnectedCallback call e w = Res (Ok tt) w []) /\
  (forall v, typeof w v = "function" <->
     exists l o c, v = VRef l /\ heap w !! l = Some o /\ okind o = KFunction c).
Proof.
  intros handle connect disconnect.
  rewrite connectedCallback_eq, disconnectedCallback_eq.
  fold handle. fold connect. fold disconnect.
  assert (forall f, calls_of (trace (guarded_call call w f)) = [(f, [])] <->
                    typeof w f = "function") as Hiff.
  { intros f. unfold guarded_call.
    destruct (String.eqb_spec (typeof w f) "function") as [Heq|Hne]; simpl.
    - done.
    - split; [done|]. intros Heq. by destruct Hne. }
  split; [apply Hiff|]. split; [apply Hiff|].
  split; [apply guarded_call_other|].
  split; [apply guarded_call_other|].
  intros v. apply typeof_function.
Qed.

End Callbacks.

(** ** Constructing an instance *)

Section Construction.

Variable valid_custom_name : string -> bool.
Variable valid_local_name : string -> bool.
Variable call : value -> list value -> M value.

Lemma createElement_eq tag w :
  valid_local_name tag = true ->
  document_createElement valid_local_name tag w =
  Res (Ok (fresh (dom (heap w))))
      (set_heap (<[fresh (dom (heap w)) :=
                   Obj ∅ false (KElement tag (registry w !! tag))]> (heap w)) w)
      [EvCreateElement tag (fresh (dom (heap w)))].
Proof. intros Hv. unfold document_createElement. by rewrite Hv. Qed.

(** The whole of [make_element], by the outcome of the initializer. *)
Lemma make_element_eq tag create params w :
  valid_local_name tag = true ->
  let e := fresh (dom (heap w)) in
  let rc := call create [VRef e; params]
              (post (document_createElement valid_local_name tag w)) in
  make_element valid_local_name call tag create params w =
  match out rc with
  | Ok h =>
      Res (Ok (VRef e)) (set_instances (<[e := h]> (instances (post rc))) (post rc))
          [EvCreateElement tag e; EvCall create [VRef e; params] (trace rc); EvSet e h]
  | Throw err =>
      Res (Throw err) (post rc)
          [EvCreateElement tag e; EvCall create [VRef e; params] (trace rc)]
  | Diverge =>
      Res Diverge (post rc)
          [EvCreateElement tag e; EvCall create [VRef e; params] (trace rc)]
  end.
Proof.
  intros Hv e rc. unfold make_element.
  unfold mbind, M_bind, mret, M_ret, bind.
  rewrite createElement_eq by done. simpl.
  unfold rc. rewrite createElement_eq by done. simpl. fold e.
  destruct (out (call create [VRef e; params] _)); done.
Qed.

Lemma new_element_facts tag w :
  world_ok valid_custom_name w -> valid_local_name tag = true ->
  let e := fresh (dom (heap w)) in
  let w1 := post (document_createElement valid_local_name tag w) in
  heap w !! e = None /\ tag_of w1 e = Some tag /\
  definition_of w1 e = registry w !! tag /\
  (e ∉ document w1) /\ instances w1 !! e = None.
Proof.
  intros Hw Hv e w1. unfold w1. rewrite createElement_eq by done. simpl. fold e.
  assert (heap w !! e = None) as He by apply fresh_heap.
  split; [done|].
  unfold tag_of, definition_of; simpl. rewrite lookup_insert_eq; simpl.
  split; [done|]. split; [done|]. split.
  - intros Hd. apply (ok_document _ _ Hw) in Hd. rewrite He in Hd. by destruct Hd.
  - destruct (instances w !! e) eqn:Hi; [|done].
    assert (is_Some (heap w !! e)) as Hs by (apply (ok_instances _ _ Hw); eauto).
    rewrite He in Hs. by destruct Hs.
Qed.

Lemma make_element_calls tag create params w :
  valid_local_name tag = true ->
  calls_of (trace (make_element valid_local_name call tag create params w))
  = [(create, [VRef (fresh (dom (heap w))); params])].
Proof.
  intros Hv. rewrite make_element_eq by done.
  by destruct (out (call create _ _)).
Qed.

Lemma make_element_returns tag create params w h :
  valid_local_name tag = true ->
  let e := fresh (dom (heap w)) in
  let rc := call create [VRef e; params]
              (post (document_createElement valid_local_name tag w)) in
  let r := make_element valid_local_name call tag create params w in
  out rc = Ok h ->
  out r = Ok (VRef e) /\
  post r = set_instances (<[e := h]> (instances (post rc))) (post rc).
Proof.
  intros Hv e rc r Hh. unfold r. rewrite make_element_eq by done.
  fold e. fold rc. by rewrite Hh.
Qed.

(** C2, as the code has it: [make_element] creates one element of the
    requested tag, in no document, calls the initializer exactly once, with
    that element and [params], and, when the initializer returns, records
    what it returned and returns that very element.  [make_element] itself
    attaches nothing: the document on return is the document the
    initializer left, so the element is attached on return exactly when the
    initializer attached it. *)
Theorem make_element_runs_initializer_once tag create params w :
  world_ok valid_custom_name w -> valid_local_name tag = true ->
  let e := fresh (dom (heap w)) in
  let w1 := post (document_createElement valid_local_name tag w) in
  let rc := call create [VRef e; params] w1 in
  let r := make_element valid_local_name call tag create params w in
  (heap w !! e = None /\ tag_of w1 e = Some tag /\ e ∉ document w1) /\
  calls_of (trace r) = [(create, [VRef e; params])] /\
  trace r = EvCreateElement tag e :: EvCall create [VRef e; params] (trace rc) ::
            (if out rc is Ok h then [EvSet e h] else []) /\
  (forall h, out rc = Ok h ->
     out r = Ok (VRef e) /\
     post r = set_instances (<[e := h]> (instances (post rc))) (post rc)) /\
  document (post r) = document (post rc).
Proof.
  intros Hw Hv e w1 rc r.
  destruct (new_element_facts tag w Hw Hv) as (He & Ht & _ & Hd & _).
  split; [done|].
  unfold r. rewrite make_element_eq by done. fold e. fold w1. fold rc.
  destruct (out rc) as [h|err|]; simpl.
  - split; [done|]. split; [done|]. split; [|done].
    intros h' [= <-]. done.
  - split; [done|]. split; [done|]. split; done.
  - split; [done|]. split; [done|]. split; done.
Qed.

End Construction.

(** ** The module's export and the worlds of the small application *)

Lemma module_init_eq w :
  module_init w =
  Res (Ok (VRef (fresh (dom (heap w)))))
      (set_heap (<[fresh (dom (heap w)) := Obj ∅ true (KFunction CUi)]> (heap w))
         (set_instances ∅ w))
      [].
Proof.
  unfold module_init, new_function, mbind, M_bind, mret, M_ret, bind, ret, modify,
    alloc, Object_freeze.
  simpl. rewrite lookup_insert_eq; simpl. by rewrite insert_insert_eq.
Qed.

Lemma empty_world_ok vcn : world_ok vcn empty_world.
Proof.
  split; simpl.
  - intros t c. by rewrite lookup_empty.
  - intros l. rewrite lookup_empty. by intros [x Hx].
  - intros l Hl. by apply not_elem_of_empty in Hl.
  - intros l o t c. by rewrite lookup_empty.
Qed.

Lemma module_init_ok vcn w : world_ok vcn w -> world_ok vcn (post (module_init w)).
Proof.
  intros [H1 H2 H3 H4]. rewrite module_init_eq; simpl.
  apply (ok_alloc _ (set_instances ∅ w)); [|exact (fresh_heap w)|simpl; congruence].
  split; simpl; [done| |done..].
  intros l. rewrite lookup_empty. by intros [x Hx].
Qed.

Lemma world0_ok : world_ok demo_custom_name world0.
Proof. apply module_init_ok, empty_world_ok. Qed.

Lemma world_attaching_ok : world_ok demo_custom_name world_attaching.
Proof. apply sound_program, world0_ok. Qed.

Lemma world_throwing_ok : world_ok demo_custom_name world_throwing.
Proof. apply sound_program, world0_ok. Qed.

Lemma make_element_runs_initializer_once_witness :
  world_ok demo_custom_name world_attaching /\
  demo_local_name "x-panel" = true /\
  calls_of (trace (make_element demo_local_name (demo_call 2) "x-panel" (VRef 2)
                     (VNum 7) world_attaching))
  = [(VRef 2, [VRef 4; VNum 7])].
Proof.
  split; [exact world_attaching_ok|]. split; [reflexivity|].
  pose proof (make_element_runs_initializer_once demo_custom_name demo_local_name
                (demo_call 2) "x-panel" (VRef 2) (VNum 7) world_attaching
                world_attaching_ok eq_refl) as (_ & H & _).
  exact H.
Defined.

(** C2 as worded fails: an initializer that appends its element to the
    document makes [make_element] return an attached element. *)
Lemma make_element_can_return_attached :
  ~ returns_unattached
      (make_element demo_local_name (demo_call 2) "x-panel" (VRef 2) (VNum 7)
         world_attaching).
Proof.
  intros H. apply (H 4%positive); [by vm_compute|].
  by vm_compute.
Qed.

(** ** What no application program can undo *)

Section Lifetime.

Variable valid_custom_name : string -> bool.
Variable valid_local_name : string -> bool.
Variable fns : nat -> list value -> list value -> prog.

Local Abbreviation callN := (call_fuel valid_custom_name valid_local_name fns).
Local Abbreviation runN n := (run valid_custom_name valid_local_name (callN n)).

(** C5, as the code has it: when the initializer throws, [make_element]
    throws the same error and returns no instance; it writes nothing to
    [instances], so the world it leaves is the one the initializer left.  The
    element under construction has no entry, and the entry of every object
    that existed before the call is as it was. *)
Theorem make_element_initializer_throws n tag create params w err :
  world_ok valid_custom_name w -> valid_local_name tag = true ->
  let e := fresh (dom (heap w)) in
  let rc := callN n create [VRef e; params]
              (post (document_createElement valid_local_name tag w)) in
  let r := make_element valid_local_name (callN n) tag create params w in
  out rc = Throw err ->
  out r = Throw err /\
  post r = post rc /\
  trace r = [EvCreateElement tag e; EvCall create [VRef e; params] (trace rc)] /\
  instances (post r) !! e = None /\
  (forall l, is_Some (heap w !! l) -> instances (post r) !! l = instances w !! l).
Proof.
  intros Hw Hv e rc r Hthrow.
  unfold r. rewrite make_element_eq by done. fold e. fold rc. rewrite Hthrow. simpl.
  split; [done|]. split; [done|]. split; [done|].
  destruct (new_element_facts valid_custom_name valid_local_name tag w Hw Hv)
    as (He & _ & _ & _ & Hi).
  destruct (sound_createElement valid_custom_name valid_local_name tag w Hw)
    as [Hw1 Hext1].
  destruct (sound_call_fuel valid_custom_name valid_local_name fns n create
              [VRef e; params] _ Hw1) as [_ Hext2].
  fold rc in Hext2. split.
  - rewrite (ext_instances _ _ Hext2); [done|].
    rewrite createElement_eq by done. simpl. fold e. rewrite lookup_insert_eq. eauto.
  - intros l Hl. pose proof (extends_trans _ _ _ Hext1 Hext2) as Hext.
    by rewrite (ext_instances _ _ Hext).
Qed.



Lemma ui_succeeds t create w :
  valid_custom_name t = true ->
  let m := fresh (dom (heap w)) in
  out (ui valid_custom_name t create w) = Ok (VRef m) /\
  heap (post (ui valid_custom_name t create w)) !! m
    = Some (Obj ∅ true (KFunction (CMakeElement t create))) /\
  (exists c, registry (post (ui valid_custom_name t create w)) !! t = Some c /\
             (registry w !! t = None -> c = UiClass)) /\
  length (defines_of (trace (ui valid_custom_name t create w))) <= 1.
Proof.
  intros Hv m. destruct (registry w !! t) as [c|] eqn:Hreg.
  - rewrite (ui_registered _ _ _ _ c) by done. simpl. fold m.
    rewrite lookup_insert_eq. split; [done|]. split; [done|]. split; [|lia].
    exists c. done.
  - rewrite ui_unregistered by done. simpl. fold m.
    rewrite !lookup_insert_eq. split; [done|]. split; [done|]. split; [|lia].
    exists UiClass. done.
Qed.

Lemma ui_never_duplicates t create w :
  out (ui valid_custom_name t create w) <> Throw (VError "NotSupportedError").
Proof.
  destruct (registry w !! t) as [c|] eqn:Hreg.
  - by rewrite (ui_registered _ _ _ _ c).
  - destruct (valid_custom_name t) eqn:Hv.
    + by rewrite ui_unregistered.
    + by rewrite ui_invalid.
Qed.

(** C1: for a valid tag, [ui] succeeds, and whatever the application does
    after a first call, a second call with the same tag succeeds as well,
    asks for no registration (its trace is empty) and leaves the registry as
    it is; the tag keeps the definition it had after the first call.  No
    call of [ui] ever fails with the platform's duplicate-registration
    error. *)
Theorem ui_registers_tag_once n p t c1 c2 w :
  world_ok valid_custom_name w -> valid_custom_name t = true ->
  let r1 := ui valid_custom_name t c1 w in
  let w' := post (runN n p (post r1)) in
  let r2 := ui valid_custom_name t c2 w' in
  (exists m1, out r1 = Ok m1) /\
  (exists m2, out r2 = Ok m2) /\
  length (defines_of (trace r1)) <= 1 /\
  trace r2 = [] /\
  registry (post r2) = registry w' /\
  (exists c, registry (post r1) !! t = Some c /\ registry (post r2) !! t = Some c) /\
  (forall t0 c0 w0,
     out (ui valid_custom_name t0 c0 w0) <> Throw (VError "NotSupportedError")).
Proof.
  intros Hw Hv r1 w' r2.
  destruct (ui_succeeds t c1 w Hv) as (Hout & _ & (c & Hc & _) & Hlen).
  fold r1 in Hout, Hc, Hlen.
  destruct (sound_ui valid_custom_name t c1 w Hw) as [Hw1 _]. fold r1 in Hw1.
  destruct (sound_program valid_custom_name valid_local_name fns n p _ Hw1)
    as [_ Hext]. fold w' in Hext.
  pose proof (ext_registry _ _ Hext t c Hc) as Hc'.
  unfold r2. rewrite (ui_registered _ _ _ _ c) by done. simpl.
  split; [eauto|]. split; [eauto|]. split; [done|]. split; [done|].
  split; [done|]. split; [eauto|].
  intros t0 c0 w0. apply ui_never_duplicates.
Qed.

Lemma call_make_element n m tag create params w :
  okind <$> heap w !! m = Some (KFunction (CMakeElement tag create)) ->
  callN (S n) (VRef m) [params] w
  = make_element valid_local_name (callN n) tag create params w.
Proof. intros H. simpl. by rewrite H. Qed.

Lemma reaction_of_ui_class (call : value -> list value -> M value) e w :
  definition_of w e = Some UiClass ->
  connected_reaction call e w = connectedCallback call e w /\
  disconnected_reaction call e w = disconnectedCallback call e w.
Proof. intros H. unfold connected_reaction, disconnected_reaction. by rewrite H. Qed.

(** C6: after a second [ui] for the same tag with another initializer,
    both [make_element] functions are at work, each calling the initializer
    it closes over (and only that one, once per instance).  The tag has the
    one definition it got at the first registration, the second [ui] having
    registered nothing; every instance of the tag, from either function, is
    created with that definition, and so answers to the same two lifecycle
    callbacks. *)
Theorem second_definition_shares_callbacks n p t c1 c2 w :
  world_ok valid_custom_name w ->
  valid_custom_name t = true -> valid_local_name t = true ->
  let r1 := ui valid_custom_name t c1 w in
  let w' := post (runN n p (post r1)) in
  let r2 := ui valid_custom_name t c2 w' in
  let w2 := post r2 in
  let e := fresh (dom (heap w2)) in
  exists m1 m2 c,
    out r1 = Ok (VRef m1) /\ out r2 = Ok (VRef m2) /\ m1 <> m2 /\ trace r2 = [] /\
    registry (post r1) !! t = Some c /\ registry w2 !! t = Some c /\
    (registry w !! t = None -> c = UiClass) /\
    (forall params,
       callN (S n) (VRef m1) [params] w2
       = make_element valid_local_name (callN n) t c1 params w2 /\
       calls_of (trace (make_element valid_local_name (callN n) t c1 params w2))
       = [(c1, [VRef e; params])]) /\
    (forall params,
       callN (S n) (VRef m2) [params] w2
       = make_element valid_local_name (callN n) t c2 params w2 /\
       calls_of (trace (make_element valid_local_name (callN n) t c2 params w2))
       = [(c2, [VRef e; params])]) /\
    definition_of (post (document_createElement valid_local_name t w2)) e = Some c /\
    (forall x w3, definition_of w3 x = Some UiClass ->
       connected_reaction (callN n) x w3 = connectedCallback (callN n) x w3 /\
       disconnected_reaction (callN n) x w3 = disconnectedCallback (callN n) x w3).
Proof.
  intros Hw Hv Hvl r1 w' r2 w2 e.
  destruct (ui_succeeds t c1 w Hv) as (Hout & Hm1 & (c & Hc & HcUi) & _).
  fold r1 in Hout, Hm1, Hc.
  destruct (sound_ui valid_custom_name t c1 w Hw) as [Hw1 _]. fold r1 in Hw1.
  destruct (sound_program valid_custom_name valid_local_name fns n p _ Hw1)
    as [Hw' Hext]. fold w' in Hw', Hext.
  pose proof (ext_registry _ _ Hext t c Hc) as Hc'.
  destruct (ext_heap _ _ Hext _ _ Hm1) as (o' & Hm1' & _ & Hfr).
  rewrite (Hfr eq_refl) in Hm1'. clear o' Hfr.
  assert (r2 = Res (Ok (VRef (fresh (dom (heap w')))))
                 (set_heap (<[fresh (dom (heap w')) :=
                     Obj ∅ true (KFunction (CMakeElement t c2))]> (heap w')) w') [])
    as Hr2 by (unfold r2; by rewrite (ui_registered _ _ _ _ c)).
  assert (fresh (dom (heap w')) <> fresh (dom (heap w))) as Hne.
  { intros Heq. pose proof (fresh_heap w') as Hf. rewrite Heq, Hm1' in Hf. done. }
  assert (world_ok valid_custom_name w2) as Hw2 by (by apply sound_ui).
  exists (fresh (dom (heap w))), (fresh (dom (heap w'))), c.
  split; [done|]. split; [by rewrite Hr2|]. split; [done|].
  split; [by rewrite Hr2|].
  split; [done|]. split; [unfold w2; by rewrite Hr2|]. split; [done|].
  assert (forall m create params,
            okind <$> heap w2 !! m = Some (KFunction (CMakeElement t create)) ->
            callN (S n) (VRef m) [params] w2
            = make_element valid_local_name (callN n) t create params w2 /\
            calls_of (trace (make_element valid_local_name (callN n) t create params w2))
            = [(create, [VRef e; params])])
    as Hmake.
  { intros m create params Hm. split; [by apply call_make_element|].
    by apply make_element_calls. }
  split; [|split; [|split]].
  - intros params. apply Hmake. unfold w2. rewrite Hr2. simpl.
    rewrite lookup_insert_ne by done. by rewrite Hm1'.
  - intros params. apply Hmake. unfold w2. rewrite Hr2. simpl.
    by rewrite lookup_insert_eq.
  - destruct (new_element_facts valid_custom_name valid_local_name t w2 Hw2 Hvl)
      as (_ & _ & Hdef & _). unfold e. rewrite Hdef. unfold w2. by rewrite Hr2.
  - intros x w3. apply reaction_of_ui_class.
Qed.

Lemma frozen_object_stays n p w l o :
  world_ok valid_custom_name w -> heap w !! l = Some o -> frozen o = true ->
  heap (post (runN n p w)) !! l = Some o.
Proof.
  intros Hw Hl Hf.
  destruct (sound_program valid_custom_name valid_local_name fns n p w Hw)
    as [_ Hext].
  destruct (ext_heap _ _ Hext l o Hl) as (o' & Hl' & _ & Heq).
  by rewrite Hl', (Heq Hf).
Qed.

Lemma frozen_object_rejects w l o key v :
  heap w !! l = Some o -> frozen o = true ->
  set_prop (VRef l) key v w = Res (Throw (VError "TypeError")) w [] /\
  post (delete_prop (VRef l) key w) = w /\
  (is_Some (props o !! key) ->
   delete_prop (VRef l) key w = Res (Throw (VError "TypeError")) w []) /\
  post (Object_freeze (VRef l) w) = w.
Proof.
  intros Hl Hf. unfold set_prop, delete_prop, Object_freeze. rewrite Hl, Hf. simpl.
  split; [done|]. split; [by case_decide|]. split; [intros ?; by case_decide|].
  destruct w as [hp rg dc ins rp]; simpl in *. unfold set_heap; simpl. f_equal.
  apply insert_id. rewrite Hl. f_equal. destruct o; simpl in *. by subst.
Qed.

Lemma ui_returns t create w m :
  out (ui valid_custom_name t create w) = Ok m ->
  m = VRef (fresh (dom (heap w))) /\
  heap (post (ui valid_custom_name t create w)) !! fresh (dom (heap w))
    = Some (Obj ∅ true (KFunction (CMakeElement t create))).
Proof.
  destruct (registry w !! t) as [c|] eqn:Hreg.
  - rewrite (ui_registered _ _ _ _ c) by done. simpl.
    intros [= <-]. by rewrite lookup_insert_eq.
  - destruct (valid_custom_name t) eqn:Hv.
    + rewrite ui_unregistered by done. simpl.
      intros [= <-]. by rewrite lookup_insert_eq.
    + by rewrite ui_invalid.
Qed.

(** C8: the function [ui] returns and the export of the module are frozen
    function objects, and remain the very same objects, frozen and with the
    same properties, after any application program.  On a frozen object an
    assignment to a property throws and changes nothing, a [delete] changes
    nothing (and throws when the property exists), and so no property is
    added, removed or reassigned. *)
Theorem functions_are_frozen n p tag create w :
  world_ok valid_custom_name w ->
  let r := ui valid_custom_name tag create w in
  let r0 := module_init w in
  (forall m, out r = Ok m ->
     exists l, m = VRef l /\
       heap (post r) !! l = Some (Obj ∅ true (KFunction (CMakeElement tag create))) /\
       heap (post (runN n p (post r))) !! l
         = Some (Obj ∅ true (KFunction (CMakeElement tag create)))) /\
  (exists u,
     out r0 = Ok (VRef u) /\
     heap (post r0) !! u = Some (Obj ∅ true (KFunction CUi)) /\
     heap (post (runN n p (post r0))) !! u = Some (Obj ∅ true (KFunction CUi))) /\
  (forall w1 l o key v, heap w1 !! l = Some o -> frozen o = true ->
     set_prop (VRef l) key v w1 = Res (Throw (VError "TypeError")) w1 [] /\
     post (delete_prop (VRef l) key w1) = w1 /\
     (is_Some (props o !! key) ->
      delete_prop (VRef l) key w1 = Res (Throw (VError "TypeError")) w1 [])).
Proof.
  intros Hw r r0. split; [|split].
  - intros m Hm. destruct (ui_returns tag create w m Hm) as [-> Hl]. fold r in Hl.
    exists (fresh (dom (heap w))). split; [done|]. split; [done|].
    apply frozen_object_stays; [by apply sound_ui|done..].
  - exists (fresh (dom (heap w))). unfold r0. rewrite module_init_eq. simpl.
    split; [done|]. rewrite lookup_insert_eq. split; [done|].
    apply frozen_object_stays; [|by simpl; rewrite lookup_insert_eq|done].
    pose proof (module_init_ok valid_custom_name w Hw) as H.
    by rewrite module_init_eq in H.
  - intros w1 l o key v Hl Hf.
    destruct (frozen_object_rejects w1 l o key v Hl Hf) as (H1 & H2 & H3 & _).
    done.
Qed.

(** C9: when the registry already has a definition for the tag, whoever
    registered it, [ui] registers nothing and changes no definition, and
    still returns a frozen [make_element] function.  That function creates
    an element (bound to the definition that was there), calls the
    initializer once and records the handle; what the platform runs when
    such an element is attached or detached is the callback of the
    definition that was there: for a foreign definition its own callback,
    whatever [instances] holds. *)
Theorem preregistered_tag_is_reused n tag create c w :
  world_ok valid_custom_name w ->
  registry w !! tag = Some c -> valid_local_name tag = true ->
  let r := ui valid_custom_name tag create w in
  let w1 := post r in
  let e := fresh (dom (heap w1)) in
  (exists m,
     out r = Ok (VRef m) /\ trace r = [] /\ registry w1 = registry w /\
     heap w1 !! m = Some (Obj ∅ true (KFunction (CMakeElement tag create))) /\
     forall params,
       let rm := callN (S n) (VRef m) [params] w1 in
       let rc := callN n create [VRef e; params]
                   (post (document_createElement valid_local_name tag w1)) in
       rm = make_element valid_local_name (callN n) tag create params w1 /\
       definition_of (post (document_createElement valid_local_name tag w1)) e = Some c /\
       calls_of (trace rm) = [(create, [VRef e; params])] /\
       (forall h, out rc = Ok h ->
          out rm = Ok (VRef e) /\ instances (post rm) !! e = Some h)) /\
  (forall x w3 cc dc, definition_of w3 x = Some (ForeignClass cc dc) ->
     connected_reaction (callN n) x w3 =
       (if decide (cc = VUndefined) then Res (Ok tt) w3 []
        else Res (void (out (callN n cc [VRef x] w3))) (post (callN n cc [VRef x] w3))
               [EvCall cc [VRef x] (trace (callN n cc [VRef x] w3))]) /\
     disconnected_reaction (callN n) x w3 =
       (if decide (dc = VUndefined) then Res (Ok tt) w3 []
        else Res (void (out (callN n dc [VRef x] w3))) (post (callN n dc [VRef x] w3))
               [EvCall dc [VRef x] (trace (callN n dc [VRef x] w3))])) /\
  (forall x w3, definition_of w3 x = Some UiClass ->
     connected_reaction (callN n) x w3 = connectedCallback (callN n) x w3 /\
     disconnected_reaction (callN n) x w3 = disconnectedCallback (callN n) x w3).
Proof.
  intros Hw Hreg Hvl r w1 e.
  assert (r = Res (Ok (VRef (fresh (dom (heap w)))))
                (set_heap (<[fresh (dom (heap w)) :=
                    Obj ∅ true (KFunction (CMakeElement tag create))]> (heap w)) w) [])
    as Hr by (unfold r; by rewrite (ui_registered _ _ _ _ c)).
  assert (world_ok valid_custom_name w1) as Hw1 by (by apply sound_ui).
  split.
  - exists (fresh (dom (heap w))).
    split; [by rewrite Hr|]. split; [by rewrite Hr|].
    split; [unfold w1; by rewrite Hr|].
    assert (heap w1 !! fresh (dom (heap w))
            = Some (Obj ∅ true (KFunction (CMakeElement tag create)))) as Hm.
    { unfold w1. rewrite Hr. simpl. by rewrite lookup_insert_eq. }
    split; [done|].
    intros params rm rc.
    assert (rm = make_element valid_local_name (callN n) tag create params w1) as Hrm.
    { apply call_make_element. by rewrite Hm. }
    split; [done|].
    destruct (new_element_facts valid_custom_name valid_local_name tag w1 Hw1 Hvl)
      as (_ & _ & Hdef & _).
    split. { unfold e. rewrite Hdef. unfold w1. rewrite Hr. done. }
    rewrite Hrm. split; [by apply make_element_calls|].
    intros h Hh.
    destruct (make_element_returns valid_local_name (callN n) tag create params w1 h
                Hvl Hh) as [Hout Hpost].
    split; [done|]. rewrite Hpost. simpl. by rewrite lookup_insert_eq.
  - split; [|intros x w3; apply reaction_of_ui_class].
    intros x w3 cc dc Hd. unfold connected_reaction, disconnected_reaction.
    rewrite Hd. unfold mbind, M_bind, mret, M_ret, bind, ret, invoke. simpl.
    split.
    + case_decide; [done|]. by destruct (out (callN n cc [VRef x] w3)).
    + case_decide; [done|]. by destruct (out (callN n dc [VRef x] w3)).
Qed.

End Lifetime.

Lemma make_element_initializer_throws_witness :
  world_ok demo_custom_name world_throwing /\
  demo_local_name "x-parent" = true /\
  out (demo_call 3 (VRef 4) [VRef 6; VNull]
         (post (document_createElement demo_local_name "x-parent" world_throwing)))
    = Throw (VStr "boom") /\
  out (make_element demo_local_name (demo_call 3) "x-parent" (VRef 4) VNull
         world_throwing) = Throw (VStr "boom") /\
  instances (post (make_element demo_local_name (demo_call 3) "x-parent" (VRef 4)
                     VNull world_throwing)) !! 6%positive = None.
Proof.
  assert (out (demo_call 3 (VRef 4) [VRef 6; VNull]
            (post (document_createElement demo_local_name "x-parent" world_throwing)))
          = Throw (VStr "boom")) as Hthrow by (vm_compute; reflexivity).
  split; [exact world_throwing_ok|]. split; [reflexivity|]. split; [exact Hthrow|].
  pose proof (make_element_initializer_throws demo_custom_name demo_local_name
                demo_fns 3 "x-parent" (VRef 4) VNull world_throwing (VStr "boom")
                world_throwing_ok eq_refl Hthrow) as (H1 & _ & _ & H2 & _).
  split; [exact H1|exact H2].
Defined.

(** C5 as worded fails: an initializer that builds a child element with
    another [make_element] function and then throws leaves the child's entry
    in [instances]. *)
Lemma make_element_throw_changes_instances :
  ~ throw_keeps_instances world_throwing
      (make_element demo_local_name (demo_call 3) "x-parent" (VRef 4) VNull
         world_throwing).
Proof.
  intros H. specialize (H (VStr "boom") ltac:(vm_compute; reflexivity)).
  apply (f_equal (fun m => m !! 7%positive)) in H.
  vm_compute in H. discriminate H.
Qed.

(** ** The theorems at work on the small application *)

Lemma world_counter_ok : world_ok demo_custom_name world_counter.
Proof. apply sound_program, world0_ok. Qed.

Lemma world_odd_ok : world_ok demo_custom_name world_odd.
Proof. apply sound_program, world0_ok. Qed.

Lemma world_two_ok : world_ok demo_custom_name world_two.
Proof. apply sound_program, world0_ok. Qed.

Lemma world_foreign_ok : world_ok demo_custom_name world_foreign.
Proof. apply sound_program, world0_ok. Qed.

(** The scenario of the specification: the counter reads 3 after the three
    attachments and 4 after the first instance is detached and attached
    again. *)
Example counter_scenario_runs :
  let r := demo_run 4 counter_scenario world0 in
  exists res, out r = Ok res /\
    optional_get (post r) res "after_three" = VNum 3 /\
    optional_get (post r) res "at_end" = VNum 4.
Proof. eexists. split; [|split]; vm_compute; reflexivity. Qed.

Lemma lifecycle_callbacks_witness :
  typeof world_counter (VRef 6) = "function" /\
  trace (connectedCallback (demo_call 2) 5 world_counter)
  = [EvCall (VRef 6) [] []] /\
  instances world_bare !! 4%positive = Some VUndefined /\
  connectedCallback (demo_call 2) 4 world_bare = Res (Ok tt) world_bare [].
Proof.
  destruct (lifecycle_callbacks (demo_call 2) 5%positive world_counter)
    as (H1 & _ & _ & _).
  destruct (lifecycle_callbacks (demo_call 2) 4%positive world_bare)
    as (_ & _ & H3 & _).
  split; [reflexivity|]. split; [|split; [reflexivity|]].
  - rewrite (H1 eq_refl). vm_compute. reflexivity.
  - apply H3. right. left. vm_compute. reflexivity.
Defined.

Lemma callbacks_call_functions_only_witness :
  typeof world_odd (VStr "soon") <> "function" /\
  connectedCallback (demo_call 2) 4 world_odd = Res (Ok tt) world_odd [] /\
  disconnectedCallback (demo_call 2) 4 world_odd = Res (Ok tt) world_odd [].
Proof.
  destruct (callbacks_call_functions_only (demo_call 2) 4%positive world_odd)
    as (_ & _ & H1 & H2 & _).
  split; [discriminate|]. split.
  - apply H1. vm_compute. discriminate.
  - apply H2. vm_compute. discriminate.
Defined.


Lemma ui_registers_tag_once_witness :
  world_ok demo_custom_name world_two /\
  demo_custom_name "x-counter" = true /\
  trace (ui demo_custom_name "x-counter" (VRef 3)
           (post (demo_run 3 (PRet VNull)
                    (post (ui demo_custom_name "x-counter" (VRef 2) world_two)))))
  = [].
Proof.
  split; [exact world_two_ok|]. split; [reflexivity|].
  pose proof (ui_registers_tag_once demo_custom_name demo_local_name demo_fns 3
                (PRet VNull) "x-counter" (VRef 2) (VRef 3) world_two
                world_two_ok eq_refl) as (_ & _ & _ & H & _).
  exact H.
Defined.

Lemma second_definition_shares_callbacks_witness :
  world_ok demo_custom_name world_two /\
  demo_custom_name "x-counter" = true /\
  demo_local_name "x-counter" = true /\
  exists m1 m2 c,
    out (ui demo_custom_name "x-counter" (VRef 2) world_two) = Ok (VRef m1) /\
    out (ui demo_custom_name "x-counter" (VRef 3)
           (post (demo_run 3 (PRet VNull)
                    (post (ui demo_custom_name "x-counter" (VRef 2) world_two)))))
      = Ok (VRef m2) /\
    registry (post (ui demo_custom_name "x-counter" (VRef 2) world_two)) !! "x-counter"
      = Some c.
Proof.
  split; [exact world_two_ok|]. split; [reflexivity|]. split; [reflexivity|].
  destruct (second_definition_shares_callbacks demo_custom_name demo_local_name
              demo_fns 3 (PRet VNull) "x-counter" (VRef 2) (VRef 3) world_two
              world_two_ok eq_refl eq_refl)
    as (m1 & m2 & c & H1 & H2 & _ & _ & H3 & _).
  exists m1, m2, c. split; [exact H1|]. split; [exact H2|exact H3].
Defined.

Lemma functions_are_frozen_witness :
  world_ok demo_custom_name world_two /\
  out (ui demo_custom_name "x-counter" (VRef 2) world_two) = Ok (VRef 4) /\
  heap (post (demo_run 3 patch_attempt
                (post (ui demo_custom_name "x-counter" (VRef 2) world_two))))
    !! 4%positive
  = Some (Obj ∅ true (KFunction (CMakeElement "x-counter" (VRef 2)))).
Proof.
  assert (out (ui demo_custom_name "x-counter" (VRef 2) world_two) = Ok (VRef 4))
    as Hout by (vm_compute; reflexivity).
  split; [exact world_two_ok|]. split; [exact Hout|].
  destruct (functions_are_frozen demo_custom_name demo_local_name demo_fns 3
              patch_attempt "x-counter" (VRef 2) world_two world_two_ok)
    as (H & _).
  destruct (H (VRef 4) Hout) as (l & Hl & _ & Hheap).
  injection Hl as <-. exact Hheap.
Defined.

Lemma preregistered_tag_is_reused_witness :
  world_ok demo_custom_name world_foreign /\
  registry world_foreign !! "x-foreign" = Some (ForeignClass (VRef 2) VUndefined) /\
  demo_local_name "x-foreign" = true /\
  trace (ui demo_custom_name "x-foreign" (VRef 2) world_foreign) = [] /\
  registry (post (ui demo_custom_name "x-foreign" (VRef 2) world_foreign))
  = registry world_foreign.
Proof.
  split; [exact world_foreign_ok|]. split; [reflexivity|]. split; [reflexivity|].
  destruct (preregistered_tag_is_reused demo_custom_name demo_local_name demo_fns 3
              "x-foreign" (VRef 2) (ForeignClass (VRef 2) VUndefined) world_foreign
              world_foreign_ok eq_refl eq_refl)
    as ((m & _ & H1 & H2 & _) & _).
  split; [exact H1|exact H2].
Defined.

(** ** Further properties of [ui] and [make_element] *)

Lemma demo_names t : demo_custom_name t = true -> demo_local_name t = true.
Proof. destruct t as [|a t]; simpl; [done|]. by intros [? _]%andb_prop. Qed.

Lemma world_direct_ok : world_ok demo_custom_name world_direct.
Proof. apply sound_program, world0_ok. Qed.

Lemma definition_of_extends w w' x c :
  extends w w' -> definition_of w x = Some c -> definition_of w' x = Some c.
Proof.
  intros Hext. unfold definition_of.
  destruct (heap w !! x) as [o|] eqn:Hx; simpl; [|done].
  destruct (ext_heap _ _ Hext x o Hx) as (o' & Hx' & Hk & _).
  rewrite Hx'. simpl. by rewrite Hk.
Qed.

Lemma callbacks_without_entry (call : value -> list value -> M value) x w :
  instances w !! x = None ->
  connectedCallback call x w = Res (Ok tt) w [] /\
  disconnectedCallback call x w = Res (Ok tt) w [].
Proof.
  intros Hx. rewrite connectedCallback_eq, disconnectedCallback_eq, Hx. simpl.
  split; by apply guarded_call_other.
Qed.

Lemma transition_calls (call : value -> list value -> M value) e w h :
  instances w !! e = Some h -> definition_of w e = Some UiClass ->
  (e ∉ document w ->
   calls_of (trace (attach call e w)) =
   if decide (typeof w (optional_get w h "connect") = "function")
   then [(optional_get w h "connect", [])] else []) /\
  (e ∈ document w ->
   calls_of (trace (detach call e w)) =
   if decide (typeof w (optional_get w h "disconnect") = "function")
   then [(optional_get w h "disconnect", [])] else []).
Proof.
  intros Hi Hd. split; intros He.
  - rewrite attach_ui_element by done.
    rewrite trace_report, connectedCallback_eq. simpl. rewrite Hi. simpl.
    unfold guarded_call.
    change (optional_get (set_document _ w) h "connect")
      with (optional_get w h "connect").
    change (typeof (set_document _ w) ?v) with (typeof w v).
    case_decide as Hty; [by rewrite Hty|].
    by destruct (String.eqb_spec (typeof w (optional_get w h "connect")) "function").
  - rewrite detach_ui_element by done.
    rewrite trace_report, disconnectedCallback_eq. simpl. rewrite Hi. simpl.
    unfold guarded_call.
    change (optional_get (set_document _ w) h "disconnect")
      with (optional_get w h "disconnect").
    change (typeof (set_document _ w) ?v) with (typeof w v).
    case_decide as Hty; [by rewrite Hty|].
    by destruct (String.eqb_spec (typeof w (optional_get w h "disconnect")) "function").
Qed.

Lemma make_element_invalid vln (call : value -> list value -> M value)
    tag create params w :
  vln tag = false ->
  make_element vln call tag create params w =
  Res (Throw (VError "InvalidCharacterError")) w [].
Proof.
  intros Hv. unfold make_element, mbind, M_bind, bind, document_createElement.
  by rewrite Hv.
Qed.

(** What a returning [make_element] has done. *)
Lemma make_element_returned vln (call : value -> list value -> M value)
    tag create params w x :
  out (make_element vln call tag create params w) = Ok (VRef x) ->
  vln tag = true /\ x = fresh (dom (heap w)) /\
  exists h,
    out (call create [VRef x; params] (post (document_createElement vln tag w))) = Ok h /\
    post (make_element vln call tag create params w) =
    set_instances
      (<[x := h]> (instances (post (call create [VRef x; params]
                                      (post (document_createElement vln tag w))))))
      (post (call create [VRef x; params] (post (document_createElement vln tag w)))).
Proof.
  destruct (vln tag) eqn:Hv; [|by rewrite make_element_invalid].
  rewrite make_element_eq by done.
  destruct (out (call create _ _)) as [h| |] eqn:Hc; simpl; [|done..].
  intros [= <-]. split; [done|]. split; [done|]. by exists h.
Qed.

Section Further.

Variable valid_custom_name : string -> bool.
Variable valid_local_name : string -> bool.
Variable fns : nat -> list value -> list value -> prog.

Local Abbreviation callN := (call_fuel valid_custom_name valid_local_name fns).
Local Abbreviation runN n := (run valid_custom_name valid_local_name (callN n)).

Lemma invalid_never_registered t w :
  world_ok valid_custom_name w -> valid_custom_name t = false ->
  registry w !! t = None.
Proof.
  intros Hw Hv. destruct (registry w !! t) as [c|] eqn:Hreg; [|done].
  rewrite (ok_registry _ _ Hw t c Hreg) in Hv. done.
Qed.

(** X1: for a tag the platform rejects, [ui] throws the platform's error
    from [customElements.define], returns no function and leaves the world
    exactly as it was; nothing the application does later changes that. *)
Theorem ui_rejected_tag n p t create create' w :
  world_ok valid_custom_name w -> valid_custom_name t = false ->
  let w' := post (runN n p w) in
  ui valid_custom_name t create w =
    Res (Throw (VError "SyntaxError")) w [EvDefine t UiClass] /\
  ui valid_custom_name t create' w' =
    Res (Throw (VError "SyntaxError")) w' [EvDefine t UiClass] /\
  registry w' !! t = None.
Proof.
  intros Hw Hv w'.
  destruct (sound_program valid_custom_name valid_local_name fns n p w Hw)
    as [Hw' _]. fold w' in Hw'.
  pose proof (invalid_never_registered t w Hw Hv) as Hreg.
  pose proof (invalid_never_registered t w' Hw' Hv) as Hreg'.
  split; [by apply ui_invalid|]. split; [by apply ui_invalid|done].
Qed.

(** X2: a [make_element] function never fails on its own account.  In any
    well-formed world its tag is registered, so [document.createElement]
    succeeds and binds the new element to a definition, and the call ends
    the way the initializer ends: it returns the element when the
    initializer returns, and throws what the initializer throws. *)
Theorem make_outcome_is_initializer_outcome n m tag create params w :
  world_ok valid_custom_name w ->
  (forall t, valid_custom_name t = true -> valid_local_name t = true) ->
  okind <$> heap w !! m = Some (KFunction (CMakeElement tag create)) ->
  let e := fresh (dom (heap w)) in
  let w1 := post (document_createElement valid_local_name tag w) in
  let rc := callN n create [VRef e; params] w1 in
  let r := callN (S n) (VRef m) [params] w in
  out (document_createElement valid_local_name tag w) = Ok e /\
  (exists c, registry w !! tag = Some c /\ definition_of w1 e = Some c) /\
  out r = match out rc with
          | Ok _ => Ok (VRef e)
          | Throw err => Throw err
          | Diverge => Diverge
          end.
Proof.
  intros Hw Hnames Hm e w1 rc r.
  destruct (heap w !! m) as [o|] eqn:Ho; simpl in Hm; [|done].
  injection Hm as Hk.
  destruct (make_function_registered valid_custom_name w m o tag create Hw Ho Hk)
    as [[c Hc] Hv%Hnames].
  destruct (new_element_facts valid_custom_name valid_local_name tag w Hw Hv)
    as (_ & _ & Hdef & _).
  split; [by rewrite createElement_eq|].
  split; [exists c; split; [done|]; unfold w1, e; by rewrite Hdef|].
  unfold r. simpl. rewrite Ho. simpl. rewrite Hk.
  rewrite make_element_eq by done. fold e. fold w1. fold rc.
  by destruct (out rc).
Qed.

(** X3: what the initializer of an instance returned is what its
    transitions use.  After [make_element] for a tag of the class of [ui]
    has returned, and whatever the application does next, [instances] maps
    the element to the handle the initializer returned, and attaching (or
    detaching) the element calls the [connect] (or [disconnect]) field of
    that handle, once, with no arguments, when it is a function, and calls
    nothing otherwise. *)
Theorem transitions_use_returned_handle n p tag create params w h :
  world_ok valid_custom_name w ->
  registry w !! tag = Some UiClass -> valid_local_name tag = true ->
  let e := fresh (dom (heap w)) in
  let rc := callN n create [VRef e; params]
              (post (document_createElement valid_local_name tag w)) in
  let r := make_element valid_local_name (callN n) tag create params w in
  out rc = Ok h ->
  let w' := post (runN n p (post r)) in
  let connect := optional_get w' h "connect" in
  let disconnect := optional_get w' h "disconnect" in
  out r = Ok (VRef e) /\
  instances w' !! e = Some h /\
  (e ∉ document w' ->
   calls_of (trace (attach (callN n) e w')) =
   if decide (typeof w' connect = "function") then [(connect, [])] else []) /\
  (e ∈ document w' ->
   calls_of (trace (detach (callN n) e w')) =
   if decide (typeof w' disconnect = "function") then [(disconnect, [])] else []).
Proof.
  intros Hw Hreg Hv e rc r Hh w' connect disconnect.
  pose proof (sound_call_fuel valid_custom_name valid_local_name fns n) as Hcall.
  destruct (make_element_returns valid_local_name (callN n) tag create params w h
              Hv Hh) as [Hout Hpost]. fold e rc r in Hout, Hpost.
  destruct (sound_make_element valid_custom_name valid_local_name (callN n) Hcall
              tag create params w Hw) as [Hwr _]. fold r in Hwr.
  destruct (sound_program valid_custom_name valid_local_name fns n p _ Hwr)
    as [_ Hext]. fold w' in Hext.
  destruct (sound_createElement valid_custom_name valid_local_name tag w Hw)
    as [Hw1 _].
  destruct (Hcall create [VRef e; params] _ Hw1) as [_ Hextc]. fold rc in Hextc.
  destruct (new_element_facts valid_custom_name valid_local_name tag w Hw Hv)
    as (_ & _ & Hdef & _). fold e in Hdef. rewrite Hreg in Hdef.
  assert (instances (post r) !! e = Some h) as Hi.
  { rewrite Hpost. simpl. apply lookup_insert_eq. }
  assert (definition_of (post r) e = Some UiClass) as Hd.
  { rewrite Hpost. apply (definition_of_extends _ _ _ _ Hextc Hdef). }
  assert (instances w' !! e = Some h) as Hi'.
  { rewrite (ext_instances _ _ Hext); [done|].
    apply (ok_instances _ _ Hwr). rewrite Hi. eauto. }
  pose proof (definition_of_extends _ _ _ _ Hext Hd) as Hd'.
  split; [done|]. split; [done|].
  apply (transition_calls (callN n) e w' h Hi' Hd').
Qed.

(** X4: [instances] gets an entry for an element only from the
    [make_element] call that creates it.  An object that exists and has no
    entry (an element from [document.createElement], an element whose
    initializer is still running) has none after anything the application
    does, so the lifecycle callbacks of the class of [ui] do nothing for
    it. *)
Theorem no_entry_without_make n p x w :
  world_ok valid_custom_name w ->
  is_Some (heap w !! x) -> instances w !! x = None ->
  let w' := post (runN n p w) in
  instances w' !! x = None /\
  connectedCallback (callN n) x w' = Res (Ok tt) w' [] /\
  disconnectedCallback (callN n) x w' = Res (Ok tt) w' [].
Proof.
  intros Hw Hx Hi w'.
  destruct (sound_program valid_custom_name valid_local_name fns n p w Hw)
    as [_ Hext]. fold w' in Hext.
  assert (instances w' !! x = None) as Hi'.
  { by rewrite (ext_instances _ _ Hext). }
  split; [done|]. by apply callbacks_without_entry.
Qed.

(** X5: [make_element] never returns the same element twice.  Of two calls
    that return, with anything in between, the second returns an element
    other than the first, both elements have an entry in [instances], and
    the entry of the first is what it was when the first call returned. *)
Theorem make_element_returns_new_elements
    n p tag1 create1 params1 tag2 create2 params2 w e1 e2 :
  world_ok valid_custom_name w ->
  let r1 := make_element valid_local_name (callN n) tag1 create1 params1 w in
  let w' := post (runN n p (post r1)) in
  let r2 := make_element valid_local_name (callN n) tag2 create2 params2 w' in
  out r1 = Ok (VRef e1) -> out r2 = Ok (VRef e2) ->
  e1 <> e2 /\
  is_Some (instances (post r1) !! e1) /\
  is_Some (instances (post r2) !! e2) /\
  instances (post r2) !! e1 = instances (post r1) !! e1.
Proof.
  intros Hw r1 w' r2 H1 H2.
  pose proof (sound_call_fuel valid_custom_name valid_local_name fns n) as Hcall.
  destruct (make_element_returned _ _ _ _ _ _ _ H1) as (_ & _ & h1 & _ & Hp1).
  destruct (make_element_returned _ _ _ _ _ _ _ H2) as (_ & He2 & h2 & _ & Hp2).
  fold r1 in Hp1. fold r2 in Hp2.
  destruct (sound_make_element valid_custom_name valid_local_name (callN n) Hcall
              tag1 create1 params1 w Hw) as [Hw1 _]. fold r1 in Hw1.
  destruct (sound_program valid_custom_name valid_local_name fns n p _ Hw1)
    as [Hw' Hext]. fold w' in Hw', Hext.
  destruct (sound_make_element valid_custom_name valid_local_name (callN n) Hcall
              tag2 create2 params2 w' Hw') as [_ Hext2]. fold r2 in Hext2.
  assert (is_Some (instances (post r1) !! e1)) as Hi1.
  { rewrite Hp1. simpl. rewrite lookup_insert_eq. eauto. }
  assert (is_Some (heap (post r1) !! e1)) as [o1 Ho1]
    by (by apply (ok_instances _ _ Hw1)).
  assert (is_Some (heap w' !! e1)) as Hh1.
  { destruct (ext_heap _ _ Hext e1 o1 Ho1) as (o' & -> & _). eauto. }
  split.
  - intros ->. rewrite He2 in Hh1. rewrite fresh_heap in Hh1. by destruct Hh1.
  - split; [done|]. split.
    + rewrite Hp2. simpl. rewrite lookup_insert_eq. eauto.
    + rewrite (ext_instances _ _ Hext2) by done.
      rewrite (ext_instances _ _ Hext); [done|eauto].
Qed.

(** X6: [ui] neither calls nor checks [create].  With a valid tag and a
    [create] that is no function, [ui] still succeeds, without a call and
    without a change to [instances]; the failure comes at each call of the
    function it returned, which creates an element, fails with a
    [TypeError] at the one call of [create] and records nothing. *)
Theorem create_is_not_checked n tag create params w :
  world_ok valid_custom_name w ->
  valid_custom_name tag = true -> valid_local_name tag = true ->
  typeof w create <> "function" ->
  (forall l, create = VRef l -> is_Some (heap w !! l)) ->
  let r := ui valid_custom_name tag create w in
  exists m,
    out r = Ok (VRef m) /\ calls_of (trace r) = [] /\
    instances (post r) = instances w /\
    let rm := callN (S (S n)) (VRef m) [params] (post r) in
    out rm = Throw (VError "TypeError") /\
    calls_of (trace rm) = [(create, [VRef (fresh (dom (heap (post r)))); params])] /\
    instances (post rm) = instances w.
Proof.
  intros Hw Hv Hvl Hty Hlive r.
  destruct (ui_succeeds valid_custom_name tag create w Hv) as (Hout & Hm & _).
  fold r in Hout, Hm.
  exists (fresh (dom (heap w))). split; [done|].
  assert (calls_of (trace r) = [] /\ instances (post r) = instances w /\
          forall l o, heap w !! l = Some o -> heap (post r) !! l = Some o)
    as (Hcalls & Hinst & Hheap).
  { unfold r. destruct (registry w !! tag) as [c|] eqn:Hreg.
    - rewrite (ui_registered _ _ _ _ c) by done. simpl.
      split; [done|]. split; [done|]. intros l o Hl.
      rewrite lookup_insert_ne; [done|]. intros <-. by rewrite fresh_heap in Hl.
    - rewrite ui_unregistered by done. simpl.
      split; [done|]. split; [done|]. intros l o Hl.
      rewrite lookup_insert_ne; [done|]. intros <-. by rewrite fresh_heap in Hl. }
  split; [done|]. split; [done|].
  intros rm. unfold rm.
  rewrite (call_make_element valid_custom_name valid_local_name fns (S n) _
             tag create) by (by rewrite Hm).
  rewrite make_element_eq by done.
  set (e := fresh (dom (heap (post r)))).
  set (w1 := post (document_createElement valid_local_name tag (post r))).
  assert (callN (S n) create [VRef e; params] w1
          = Res (Throw (VError "TypeError")) w1 []) as Hcall.
  { simpl. destruct create as [| | | | | |l]; try done.
    destruct (Hlive l eq_refl) as [o Ho].
    assert (heap w1 !! l = Some o) as Hl1.
    { unfold w1. rewrite createElement_eq by done. simpl.
      rewrite lookup_insert_ne; [by apply Hheap|].
      intros Heq. apply Hheap in Ho. rewrite <- Heq in Ho.
      by rewrite fresh_heap in Ho. }
    rewrite Hl1. simpl.
    destruct (okind o) as [|c|t d] eqn:Hk; try done.
    exfalso. apply Hty. simpl. rewrite Ho. simpl. by rewrite Hk. }
  rewrite Hcall. simpl. split; [done|]. split; [done|].
  unfold w1. rewrite createElement_eq by done. simpl. done.
Qed.


End Further.

Lemma ui_rejected_tag_witness :
  world_ok demo_custom_name world0 /\
  demo_custom_name "panel" = false /\
  ui demo_custom_name "panel" (VRef 1) world0 =
    Res (Throw (VError "SyntaxError")) world0 [EvDefine "panel" UiClass].
Proof.
  split; [exact world0_ok|]. split; [reflexivity|].
  exact (proj1 (ui_rejected_tag demo_custom_name demo_local_name demo_fns 1
                  (PRet VNull) "panel" (VRef 1) (VRef 1) world0
                  world0_ok eq_refl)).
Defined.

Lemma make_outcome_is_initializer_outcome_witness :
  world_ok demo_custom_name world_counter /\
  okind <$> heap world_counter !! 4%positive
    = Some (KFunction (CMakeElement "x-counter" (VRef 3))) /\
  out (demo_call 4 (VRef 4) [VNull] world_counter) = Ok (VRef 9).
Proof.
  split; [exact world_counter_ok|]. split; [reflexivity|].
  destruct (make_outcome_is_initializer_outcome demo_custom_name demo_local_name
              demo_fns 3 4%positive "x-counter" (VRef 3) VNull world_counter
              world_counter_ok demo_names eq_refl) as (_ & _ & H).
  unfold demo_call. rewrite H. vm_compute. reflexivity.
Defined.

Lemma transitions_use_returned_handle_witness :
  world_ok demo_custom_name world_counter /\
  registry world_counter !! "x-counter" = Some UiClass /\
  demo_local_name "x-counter" = true /\
  out (demo_call 3 (VRef 3) [VRef 9; VNull]
         (post (document_createElement demo_local_name "x-counter" world_counter)))
    = Ok (VRef 12) /\
  instances
    (post (demo_run 3 cycle_5
             (post (make_element demo_local_name (demo_call 3) "x-counter" (VRef 3)
                      VNull world_counter)))) !! 9%positive
    = Some (VRef 12).
Proof.
  assert (out (demo_call 3 (VRef 3) [VRef 9; VNull]
                 (post (document_createElement demo_local_name "x-counter"
                          world_counter))) = Ok (VRef 12)) as Hh
    by (vm_compute; reflexivity).
  split; [exact world_counter_ok|]. split; [reflexivity|]. split; [reflexivity|].
  split; [exact Hh|].
  destruct (transitions_use_returned_handle demo_custom_name demo_local_name
              demo_fns 3 cycle_5 "x-counter" (VRef 3) VNull world_counter (VRef 12)
              world_counter_ok eq_refl eq_refl Hh) as (_ & H & _).
  exact H.
Defined.

Lemma no_entry_without_make_witness :
  world_ok demo_custom_name world_direct /\
  is_Some (heap world_direct !! 4%positive) /\
  instances world_direct !! 4%positive = None /\
  instances (post (demo_run 3 (PDo (OAttach (VRef 4)) PRet) world_direct))
    !! 4%positive = None.
Proof.
  assert (is_Some (heap world_direct !! 4%positive)) as Hx
    by (vm_compute; eauto).
  split; [exact world_direct_ok|]. split; [exact Hx|]. split; [reflexivity|].
  exact (proj1 (no_entry_without_make demo_custom_name demo_local_name demo_fns 3
                  (PDo (OAttach (VRef 4)) PRet) 4%positive world_direct
                  world_direct_ok Hx eq_refl)).
Defined.

Lemma make_element_returns_new_elements_witness :
  world_ok demo_custom_name world_counter /\
  out (make_element demo_local_name (demo_call 3) "x-counter" (VRef 3) VNull
         world_counter) = Ok (VRef 9) /\
  out (make_element demo_local_name (demo_call 3) "x-counter" (VRef 3) VNull
         (post (demo_run 3 (PRet VNull)
                  (post (make_element demo_local_name (demo_call 3) "x-counter"
                           (VRef 3) VNull world_counter))))) = Ok (VRef 13) /\
  9%positive <> 13%positive.
Proof.
  assert (out (make_element demo_local_name (demo_call 3) "x-counter" (VRef 3) VNull
                 world_counter) = Ok (VRef 9)) as H1 by (vm_compute; reflexivity).
  assert (out (make_element demo_local_name (demo_call 3) "x-counter" (VRef 3) VNull
                 (post (demo_run 3 (PRet VNull)
                          (post (make_element demo_local_name (demo_call 3)
                                   "x-counter" (VRef 3) VNull world_counter)))))
          = Ok (VRef 13)) as H2 by (vm_compute; reflexivity).
  split; [exact world_counter_ok|]. split; [exact H1|]. split; [exact H2|].
  exact (proj1 (make_element_returns_new_elements demo_custom_name demo_local_name
                  demo_fns 3 (PRet VNull) "x-counter" (VRef 3) VNull
                  "x-counter" (VRef 3) VNull world_counter 9%positive 13%positive
                  world_counter_ok H1 H2)).
Defined.

Lemma create_is_not_checked_witness :
  world_ok demo_custom_name world0 /\
  demo_custom_name "x-counter" = true /\
  demo_local_name "x-counter" = true /\
  typeof world0 VUndefined <> "function" /\
  exists m,
    out (ui demo_custom_name "x-counter" VUndefined world0) = Ok (VRef m) /\
    out (demo_call 2 (VRef m) [VNull]
           (post (ui demo_custom_name "x-counter" VUndefined world0)))
      = Throw (VError "TypeError").
Proof.
  split; [exact world0_ok|]. split; [reflexivity|]. split; [reflexivity|].
  split; [discriminate|].
  destruct (create_is_not_checked demo_custom_name demo_local_name demo_fns 0
              "x-counter" VUndefined VNull world0 world0_ok eq_refl eq_refl
              ltac:(discriminate) ltac:(discriminate))
    as (m & H1 & _ & _ & H2 & _).
  exists m. split; [exact H1|exact H2].
Defined.
